(** * LostSword art-placement editor: formation model, layout geometry,
      compositor and image cache of [src/app/page.tsx]

    A shallow embedding of the parts of [page.tsx] that the specification
    talks about, followed by the theorems that settle each specified
    property against the embedded code.

    Conventions of the embedding.
    - A JavaScript array of [LibraryItem | null] is a [list (option
      LibraryItem)]; [null], [undefined] and array holes are all [None]
      (the code only tests such entries for truthiness or reads [?.id]).
      Array indices are natural numbers.
    - An array write [next[i] = v] is [js_set]: in range it overwrites,
      past the end it extends the array, as JavaScript does.
    - A React state updater [setX(prev => ...)] is the pure function of
      [prev] that the arrow function computes.
    - Asset ids, names and sources are only compared and copied, they are
      [string]s; the note text is scanned character by character and is a
      list of UTF-16 code units.
    - Pixel quantities are exact rationals ([Q]), so [4 / 3] or [0.4] carry
      no rounding; the external text metric [ctx.measureText(s).width] is a
      section variable. *)

From stdpp Require Import base option list strings pretty gmap.
From Stdlib Require Import QArith Qminmax Qround Lia Lqa.

Open Scope nat_scope.

(** ** Data model (page.tsx, lines 1017-1035) *)

Record LibraryItem := mkItem {
  item_id : string;
  item_name : string;
  item_src : string
}.

(** [arr[i]] for reading: out of range gives [undefined], which the code
    treats like [null]. *)
Definition slotAt (arr : list (option LibraryItem)) (i : nat)
  : option LibraryItem :=
  default None (arr !! i).

(** [next[i] = v] on a copy of the array. *)
Definition js_set (arr : list (option LibraryItem)) (i : nat)
    (v : option LibraryItem) : list (option LibraryItem) :=
  if decide (i < length arr) then <[i:=v]> arr
  else arr ++ replicate (i - length arr) None ++ [v].

(** [prev.findIndex(p)]; [None] stands for [-1]. *)
Definition findIndex {A} (p : A → Prop) `{!∀ x, Decision (p x)}
    (arr : list A) : option nat :=
  fst <$> list_find p arr.

(** [s?.id === item.id] for a non-null [item]. *)
Definition sameId (it : LibraryItem) (s : option LibraryItem) : Prop :=
  item_id <$> s = Some (item_id it).

#[global] Instance sameId_dec it s : Decision (sameId it s).
Proof. unfold sameId. apply _. Defined.

(** ** Character formation (page.tsx, lines 324-358) *)

Module Formation.

(** [idx <= 1 ? 0 : idx <= 3 ? 1 : 2] *)
Definition laneOf (idx : nat) : nat :=
  if decide (idx ≤ 1) then 0 else if decide (idx ≤ 3) then 1 else 2.

(** [prev.filter(Boolean).length] *)
Definition filled (prev : list (option LibraryItem)) : nat :=
  length (filter is_Some prev).

(** The [forEach] that fills [laneCounts = [0, 0, 0]]: one step per
    (index, slot) pair. *)
Definition countStep (counts : list Z) (p : nat * option LibraryItem)
  : list Z :=
  match p.2 with
  | None => counts
  | Some _ => alter (λ c, c + 1)%Z (laneOf p.1) counts
  end.

Definition laneCounts (prev : list (option LibraryItem)) : list Z :=
  foldl countStep [0; 0; 0]%Z (zip (seq 0 (length prev)) prev).

(** Lines 347-351: the two capacity guards and the final write.  [filled]
    is the count taken from [prev] before any slot was vacated. *)
Definition place (prev next : list (option LibraryItem)) (nfilled : nat)
    (counts : list Z) (index : nat) (it : LibraryItem)
  : list (option LibraryItem) :=
  let targetLane := laneOf index in
  if bool_decide (slotAt next index = None) && bool_decide (5 ≤ nfilled)
  then prev
  else if bool_decide (slotAt next index = None)
          && bool_decide (2 ≤ counts !!! targetLane)%Z
  then prev
  else js_set next index (Some it).

Definition assignFormation (index : nat) (item : option LibraryItem)
    (prev : list (option LibraryItem)) : list (option LibraryItem) :=
  let nfilled := filled prev in
  let counts := laneCounts prev in
  match item with
  | Some it =>
      match findIndex (sameId it) prev with
      | Some existingIdx =>
          let next := js_set prev existingIdx None in
          if decide (existingIdx = index) then next
          else
            let oldLane := laneOf existingIdx in
            let counts' := alter (λ c, c - 1)%Z oldLane counts in
            place prev next nfilled counts' index it
      | None => place prev prev nfilled counts index it
      end
  | None => js_set prev index None
  end.

(** The initial state [[null, null, null, null, null, null]]. *)
Definition emptyFormation : list (option LibraryItem) :=
  replicate 6 None.

(** A sequence of [assignFormation] calls applied in order. *)
Definition runCalls (calls : list (nat * option LibraryItem))
    (s : list (option LibraryItem)) : list (option LibraryItem) :=
  foldl (λ st c, assignFormation c.1 c.2 st) s calls.

(** Number of occupied positions whose index satisfies [P]. *)
Fixpoint occFrom (P : nat → bool) (base : nat)
    (arr : list (option LibraryItem)) : nat :=
  match arr with
  | [] => 0
  | s :: rest =>
      (if bool_decide (is_Some s) && P base then 1 else 0)
      + occFrom P (S base) rest
  end.

Definition occupied (arr : list (option LibraryItem)) : nat :=
  occFrom (λ _, true) 0 arr.

Definition laneOccupied (lane : nat) (arr : list (option LibraryItem))
  : nat :=
  occFrom (λ i, bool_decide (laneOf i = lane)) 0 arr.

(** Contribution of one slot to a count: 1 when it is occupied and its
    index is selected. *)
Definition ind (s : option LibraryItem) (b : bool) : nat :=
  if bool_decide (is_Some s) && b then 1 else 0.

(** The capacity policy: at most 5 occupied, at most 2 per lane. *)
Definition capacityOk (s : list (option LibraryItem)) : Prop :=
  occupied s ≤ 5 ∧
  laneOccupied 0 s ≤ 2 ∧ laneOccupied 1 s ≤ 2 ∧ laneOccupied 2 s ≤ 2.

End Formation.

(** ** Pet formation (page.tsx, lines 1786-1796; the older copy at lines
    360-371 is the same function) *)

Module PetFormation.

(** [s?.id === item?.id]: both sides may be [undefined]. *)
Definition sameOptId (item s : option LibraryItem) : Prop :=
  item_id <$> s = item_id <$> item.

#[global] Instance sameOptId_dec item s : Decision (sameOptId item s).
Proof. unfold sameOptId. apply _. Defined.

Definition assignPetFormation (index : nat) (item : option LibraryItem)
    (prev : list (option LibraryItem)) : list (option LibraryItem) :=
  let next :=
    match findIndex (sameOptId item) prev with
    | Some existingIdx =>
        if decide (existingIdx ≠ index) then js_set prev existingIdx None
        else prev
    | None => prev
    end in
  js_set next index item.

Definition emptyPetFormation : list (option LibraryItem) :=
  replicate 3 None.

End PetFormation.

(** ** Canvas geometry of [drawCanvas] (page.tsx, lines 1176-1434)

    Every [const] of [drawCanvas] that fixes a position or a size, as a
    function of the [width] prop.  Loop indices are [nat]s injected into
    [Q]. *)

Definition ofNat (n : nat) : Q := inject_Z (Z.of_nat n).

Record Rect := mkRect { rx : Q; ry : Q; rw : Q; rh : Q }.

(** Same rectangle: equal x, y, width and height as rational numbers. *)
Definition rect_eq (a b : Rect) : Prop :=
  (rx a == rx b ∧ ry a == ry b ∧ rw a == rw b ∧ rh a == rh b)%Q.

(** The clickable sub-regions of one character cell. *)
Inductive SubRegion :=
  | CharImage
  | CardImage
  | EquipCell (j : nat).

Module Layout.
Open Scope Q_scope.

Section with_width.
Variable canvasWidth : Q.

Definition padding : Q := 16.
Definition slotWidth : Q := (canvasWidth - padding * 2 - 16 * 4) / 5.
Definition charImageHeight : Q := Qmin (slotWidth * (4 / 3)) 280.
Definition cardImageHeight : Q := Qmin (slotWidth * (8 / 5)) 280.
Definition equipSize : Q := 52.
Definition slotsHeight : Q :=
  charImageHeight + cardImageHeight + equipSize + 32.
Definition bottomSectionHeight : Q := 180.
Definition calculatedHeight : Q :=
  padding + slotsHeight + 12 + bottomSectionHeight + padding.

(** [let y = padding] at the top of the character row. *)
Definition rowY : Q := padding.
Definition slotPadding : Q := 8.

(** Loop body for cell [i]: [x], [slotX] and the three values that
    [slotY] takes. *)
Definition cellX (i : nat) : Q := padding + ofNat i * (slotWidth + 16).
Definition slotX (i : nat) : Q := cellX i + slotPadding.
Definition slotY_char : Q := rowY + slotPadding.
Definition slotY_card : Q := slotY_char + (charImageHeight + 12).
Definition slotY_equip : Q := slotY_card + (cardImageHeight + 12).

Definition cellRect (i : nat) : Rect :=
  mkRect (cellX i) rowY slotWidth slotsHeight.
Definition charRect (i : nat) : Rect :=
  mkRect (slotX i) slotY_char (slotWidth - slotPadding * 2) charImageHeight.
Definition cardRect (i : nat) : Rect :=
  mkRect (slotX i) slotY_card (slotWidth - slotPadding * 2) cardImageHeight.

Definition equipGap : Q := 6.
Definition equipTotalWidth : Q := slotWidth - slotPadding * 2.
Definition equipItemWidth : Q := (equipTotalWidth - equipGap * 3) / 4.
Definition equipRowRect (i : nat) : Rect :=
  mkRect (slotX i) slotY_equip equipTotalWidth (equipSize + 12).
Definition equipX (i j : nat) : Q :=
  slotX i + ofNat j * (equipItemWidth + equipGap).
Definition equipRect (i j : nat) : Rect :=
  mkRect (equipX i j) (slotY_equip + 6) equipItemWidth equipSize.

(** Where [drawCanvas] draws a sub-region of cell [i]. *)
Definition drawnRect (i : nat) (r : SubRegion) : Rect :=
  match r with
  | CharImage => charRect i
  | CardImage => cardRect i
  | EquipCell j => equipRect i j
  end.

(** Bottom section: pet lane boxes and the note area. *)
Definition bottomSectionY : Q := rowY + (slotsHeight + 12).
Definition petSectionWidth : Q := (canvasWidth - padding * 2 - 12) * (6 / 10).
Definition petBoxWidth : Q := (petSectionWidth - 16 - 8) / 3.
Definition petBoxHeight : Q := 144.
Definition petBoxY : Q := bottomSectionY + 8.
Definition petX (i : nat) : Q := padding + 8 + ofNat i * (petBoxWidth + 4).
Definition petImageSize : Q := 80.
Definition petImageX (i : nat) : Q := petX i + (petBoxWidth - petImageSize) / 2.
Definition petImageY : Q := petBoxY + 36.
Definition petImageRect (i : nat) : Rect :=
  mkRect (petImageX i) petImageY petImageSize petImageSize.

Definition noteX : Q := padding + petSectionWidth + 12.
Definition noteSectionWidth : Q :=
  (canvasWidth - padding * 2 - 12) * (4 / 10).
Definition notePadding : Q := 12.
Definition noteStartY : Q := bottomSectionY + 40.
Definition noteAreaWidth : Q := noteSectionWidth - notePadding * 2.
Definition noteAreaHeight : Q := bottomSectionHeight - 40 - notePadding.

End with_width.
End Layout.

(** ** Overlay geometry (page.tsx, lines 1800-1819 and 1865-1949) *)

Module Overlay.
Open Scope Q_scope.

Record CanvasLayout := mkCanvasLayout {
  padding : Q;
  slotWidth : Q;
  charImageHeight : Q;
  cardImageHeight : Q;
  equipSize : Q;
  slotPadding : Q;
  gap : Q
}.

(** The [useMemo] block: the same formulas as [drawCanvas] at the
    constant [width = 1280]. *)
Definition canvasLayout : CanvasLayout :=
  let width : Q := 1280 in
  let padding : Q := 16 in
  let slotWidth := (width - padding * 2 - 16 * 4) / 5 in
  let charImageHeight := Qmin (slotWidth * (4 / 3)) 280 in
  let cardImageHeight := Qmin (slotWidth * (8 / 5)) 280 in
  let equipSize : Q := 52 in
  let slotPadding : Q := 8 in
  let gap : Q := 16 in
  mkCanvasLayout padding slotWidth charImageHeight cardImageHeight
    equipSize slotPadding gap.

(** CSS boxes.  The frame around the canvas has 16px padding ([p-4]) and
    the overlay is absolutely positioned at [top: 16px; left: 16px] of
    that frame, so its origin, in canvas coordinates, is the difference. *)
Definition framePadding : Q := 16.
Definition overlayOriginX : Q := 16 - framePadding.
Definition overlayOriginY : Q := 16 - framePadding.

(** The inner box has [paddingLeft] and [paddingTop] of
    [canvasLayout.padding]; its row is a flex container with
    [gap: canvasLayout.gap] whose children are [canvasLayout.slotWidth]
    wide, so each child starts where the previous one ends plus the gap. *)
Fixpoint flexStart (idx : nat) : Q :=
  match idx with
  | O => 0
  | S k => flexStart k + slotWidth canvasLayout + gap canvasLayout
  end.

Definition cellLeft (idx : nat) : Q :=
  overlayOriginX + padding canvasLayout + flexStart idx.
Definition cellTop : Q := overlayOriginY + padding canvasLayout.

(** A button absolutely positioned inside cell [idx] by its [left],
    [top], [width] and [height] style (border-box sizing). *)
Definition button (idx : nat) (left top width height : Q) : Rect :=
  mkRect (cellLeft idx + left) (cellTop + top) width height.

Definition charButton (idx : nat) : Rect :=
  button idx (slotPadding canvasLayout) (slotPadding canvasLayout)
    (slotWidth canvasLayout - slotPadding canvasLayout * 2)
    (charImageHeight canvasLayout).

Definition cardButton (idx : nat) : Rect :=
  button idx (slotPadding canvasLayout)
    (slotPadding canvasLayout + charImageHeight canvasLayout + 12)
    (slotWidth canvasLayout - slotPadding canvasLayout * 2)
    (cardImageHeight canvasLayout).

Definition equipButton (idx equipIdx : nat) : Rect :=
  let equipGap : Q := 6 in
  let equipTotalWidth :=
    slotWidth canvasLayout - slotPadding canvasLayout * 2 in
  let equipItemWidth := (equipTotalWidth - equipGap * 3) / 4 in
  let slotX := slotPadding canvasLayout in
  let slotY := slotPadding canvasLayout + charImageHeight canvasLayout + 12
               + cardImageHeight canvasLayout + 12 in
  let equipX := slotX + ofNat equipIdx * (equipItemWidth + equipGap) in
  let equipY := slotY + 6 in
  button idx equipX equipY equipItemWidth (equipSize canvasLayout).

Definition buttonRect (idx : nat) (r : SubRegion) : Rect :=
  match r with
  | CharImage => charButton idx
  | CardImage => cardButton idx
  | EquipCell j => equipButton idx j
  end.

End Overlay.

(** ** Note text layout (page.tsx, lines 1456-1511)

    [noteText] is inspected character by character ([split], [trim], the
    [\s+] regular expression), so it is a list of UTF-16 code units. *)

Module Note.

Abbreviation jsstring := (list N).

(** ECMAScript WhiteSpace and LineTerminator code units: the characters
    that [trim()] strips and that [\s] matches. *)
Definition isWhiteSpace (c : N) : bool :=
  bool_decide (c ∈ [9; 10; 11; 12; 13; 32; 160; 5760; 8232; 8233; 8239;
                    8287; 12288; 65279]%N)
  || ((8192 <=? c)%N && (c <=? 8202)%N).

(** Truthiness of a string, also [s.length > 0]. *)
Definition nonEmpty (s : jsstring) : bool :=
  match s with [] => false | _ => true end.

Fixpoint trimStart (s : jsstring) : jsstring :=
  match s with
  | [] => []
  | c :: rest => if isWhiteSpace c then trimStart rest else s
  end.

Definition trimEnd (s : jsstring) : jsstring :=
  reverse (trimStart (reverse s)).

Definition trim (s : jsstring) : jsstring := trimEnd (trimStart s).

(** [s.split(sep)] for a one-character separator; [cur] is the piece
    being read. *)
Fixpoint splitOn (sep : N) (cur s : jsstring) : list jsstring :=
  match s with
  | [] => [cur]
  | c :: rest =>
      if (c =? sep)%N then cur :: splitOn sep [] rest
      else splitOn sep (cur ++ [c]) rest
  end.

Definition newline : N := 10.
Definition space : N := 32.

(** [noteText.split('\n')] *)
Definition paragraphsOf (noteText : jsstring) : list jsstring :=
  splitOn newline [] noteText.

(** [s.split(/\s+/)]: pieces between maximal runs of whitespace;
    [inRun] holds while such a run is being skipped. *)
Fixpoint splitRuns (inRun : bool) (cur s : jsstring) : list jsstring :=
  match s with
  | [] => [cur]
  | c :: rest =>
      if isWhiteSpace c then
        if inRun then splitRuns true cur rest
        else cur :: splitRuns true [] rest
      else splitRuns false (cur ++ [c]) rest
  end.

(** [paragraph.trim().split(/\s+/).filter(word => word.length > 0)] *)
Definition wordsOf (paragraph : jsstring) : list jsstring :=
  filter (λ word, nonEmpty word = true) (splitRuns false [] (trim paragraph)).

Definition lineHeight : Q := 20.

(** [Math.floor(noteAreaHeight / lineHeight)] *)
Definition maxLines : nat :=
  Z.to_nat (Qfloor (Layout.noteAreaHeight / lineHeight)).

(** One [fillText(line, x, y)] call. *)
Record TextDraw := mkTextDraw { td_text : jsstring; td_x : Q; td_y : Q }.

Section with_metrics.
(** [ctx.measureText(s).width] under the note font, and the [width]
    prop. *)
Variable measureText : jsstring → Q.
Variable canvasWidth : Q.

(** [metrics.width > noteAreaWidth] *)
Definition tooWide (line : jsstring) : bool :=
  negb (Qle_bool (measureText line) (Layout.noteAreaWidth canvasWidth)).

(** The inner [for (const word of words)] loop on the state
    ([lines], [currentLine]). *)
Fixpoint wrapWords (lines : list jsstring) (currentLine : jsstring)
    (words : list jsstring) : list jsstring * jsstring :=
  match words with
  | [] => (lines, currentLine)
  | word :: rest =>
      if bool_decide (maxLines ≤ length lines) then (lines, currentLine)
      else
        let testLine :=
          if nonEmpty currentLine then currentLine ++ [space] ++ word
          else word in
        if tooWide testLine && nonEmpty currentLine
        then wrapWords (lines ++ [currentLine]) word rest
        else wrapWords lines testLine rest
  end.

(** The outer [for (const paragraph of paragraphs)] loop. *)
Fixpoint layoutParagraphs (lines : list jsstring)
    (paragraphs : list jsstring) : list jsstring :=
  match paragraphs with
  | [] => lines
  | paragraph :: rest =>
      if bool_decide (maxLines ≤ length lines) then lines
      else if negb (nonEmpty (trim paragraph)) then
        layoutParagraphs
          (if bool_decide (length lines < maxLines) then lines ++ [[]]
           else lines)
          rest
      else
        let '(lines', currentLine) :=
          wrapWords lines [] (wordsOf paragraph) in
        layoutParagraphs
          (if nonEmpty currentLine && bool_decide (length lines' < maxLines)
           then lines' ++ [currentLine] else lines')
          rest
  end.

Definition noteLines (noteText : jsstring) : list jsstring :=
  layoutParagraphs [] (paragraphsOf noteText).

(** The guarded drawing block: one [fillText] per index below
    [Math.min(lines.length, maxLines)]. *)
Definition drawNote (noteText : jsstring) : list TextDraw :=
  if nonEmpty noteText && nonEmpty (trim noteText) then
    let lines := noteLines noteText in
    (λ idx,
       mkTextDraw (default [] (lines !! idx))
         (Layout.noteX canvasWidth + Layout.notePadding)
         (Layout.noteStartY canvasWidth + ofNat idx * lineHeight))
    <$> seq 0 (min (length lines) maxLines)
  else [].

(** *** Greedy word wrap as the specification words it

    Words joined by single spaces; a paragraph's words are grouped line
    by line, each line taking its first word unconditionally and then
    every following word for as long as the joined text still fits; a
    blank paragraph is one empty line; the paragraphs' lines, in order,
    are cut to [maxLines]. *)
Definition joinSp (group : list jsstring) : jsstring :=
  match group with
  | [] => []
  | w :: ws => foldl (λ acc w', acc ++ [space] ++ w') w ws
  end.

Definition fits (line : jsstring) : bool :=
  Qle_bool (measureText line) (Layout.noteAreaWidth canvasWidth).

Fixpoint greedyGroups (cur : list jsstring) (words : list jsstring)
  : list (list jsstring) :=
  match words with
  | [] => match cur with [] => [] | _ => [cur] end
  | w :: rest =>
      match cur with
      | [] => greedyGroups [w] rest
      | _ =>
          if fits (joinSp (cur ++ [w])) then greedyGroups (cur ++ [w]) rest
          else cur :: greedyGroups [w] rest
      end
  end.

Definition paragraphLines (paragraph : jsstring) : list jsstring :=
  if nonEmpty (trim paragraph)
  then joinSp <$> greedyGroups [] (wordsOf paragraph)
  else [[]].

Definition wrappedLines (noteText : jsstring) : list jsstring :=
  take maxLines (concat (paragraphLines <$> paragraphsOf noteText)).

End with_metrics.

(** What the code does with [currentLine] after the inner loop:
    [if (currentLine && lines.length < maxLines) lines.push(currentLine)]. *)
Definition finishLine (st : list jsstring * jsstring) : list jsstring :=
  if nonEmpty st.2 && bool_decide (length st.1 < maxLines)
  then st.1 ++ [st.2] else st.1.

(** Inverse of [split('\n')]: the pieces with a newline between
    neighbours. *)
Definition joinLines (pieces : list jsstring) : jsstring :=
  match pieces with
  | [] => []
  | p :: ps => p ++ concat ((λ q, newline :: q) <$> ps)
  end.

(** A word as [wordsOf] produces them: non-empty and free of
    whitespace. *)
Definition cleanWord (w : jsstring) : Prop :=
  w ≠ [] ∧ Forall (λ c, isWhiteSpace c = false) w.

(** A fixed-pitch stand-in for the text metric: 8px per code unit. *)
Definition fixedPitch (s : jsstring) : Q := 8 * ofNat (length s).

(** ASCII text as code units. *)
Definition codeUnits (s : string) : jsstring :=
  (λ a, Ascii.N_of_ascii a) <$> String.list_ascii_of_string s.

End Note.

(** ** Compositor: what [drawCanvas] draws for assigned assets
    (page.tsx, lines 1168-1426)

    Each canvas call is one [DrawOp] carrying the context state it was
    issued under.  The lane boxes' gradient, icon and label, the section
    frames and the note title do not depend on any assignment and are
    left out of the frame; the order of the remaining calls is the
    source's. *)

(** An [HTMLImageElement]: every [new Image()] is a distinct object. *)
Record Image := mkImage {
  img_id : nat;
  img_src : string;
  complete : bool
}.

Inductive EquipKind := weapon | armor | helmet | roon.

Record Equips := mkEquips {
  eq_weapon : option LibraryItem;
  eq_armor : option LibraryItem;
  eq_helmet : option LibraryItem;
  eq_roon : option LibraryItem
}.

Record CharSlot := mkCharSlot {
  slot_id : string;
  char : option LibraryItem;
  card : option LibraryItem;
  equips : Equips
}.

(** [slot.equips[kind]] *)
Definition equipOf (e : Equips) (kind : EquipKind) : option LibraryItem :=
  match kind with
  | weapon => eq_weapon e
  | armor => eq_armor e
  | helmet => eq_helmet e
  | roon => eq_roon e
  end.

(** A JavaScript completion: a value, or a thrown exception. *)
Inductive Completion (A : Type) :=
  | Normal (v : A)
  | Throw (reason : string).
Arguments Normal {A} v.
Arguments Throw {A} reason.

Definition bindC {A B} (c : Completion A) (f : A → Completion B)
  : Completion B :=
  match c with
  | Normal v => f v
  | Throw r => Throw r
  end.

Module Compositor.
Open Scope Q_scope.

Inductive DrawOp :=
  | FillRect (fillStyle : string) (r : Rect)
  | StrokeRect (strokeStyle : string) (lineDash : list Z) (r : Rect)
  | FillRoundRect (fillStyle : string) (r : Rect) (radius : Q)
  | StrokeRoundRect (strokeStyle : string) (r : Rect) (radius : Q)
  | DrawImage (img : Image) (r : Rect)
  | FillText (fillStyle font textAlign textBaseline : string)
      (text : string) (x y : Q).

Definition font (weightAndSize : string) : string :=
  weightAndSize +:+ " 'Noto Sans KR', sans-serif".

(** Text drawn with [textAlign = "center"], [textBaseline = "middle"]. *)
Definition centered (fillStyle weightAndSize text : string) (x y : Q)
  : DrawOp :=
  FillText fillStyle (font weightAndSize) "center" "middle" text x y.

(** [img && img.complete] for [img = imageCache.get(src)]. *)
Definition readyImage (imageCache : gmap string Image) (src : string)
  : option Image :=
  match imageCache !! src with
  | Some img => if complete img then Some img else None
  | None => None
  end.

Section with_canvas.
Variable imageCache : gmap string Image.
Variable canvasWidth : Q.

Definition innerWidth : Q :=
  Layout.slotWidth canvasWidth - Layout.slotPadding * 2.

(** Lines 1219-1255. *)
Definition drawChar (i : nat) (slot : CharSlot) : list DrawOp :=
  let slotX := Layout.slotX canvasWidth i in
  let slotY := Layout.slotY_char in
  let charImageHeight := Layout.charImageHeight canvasWidth in
  match char slot with
  | Some c =>
      match readyImage imageCache (item_src c) with
      | Some charImg =>
          let nameBgHeight : Q := 40 in
          [ DrawImage charImg (mkRect slotX slotY innerWidth charImageHeight);
            FillRect "rgba(0, 0, 0, 0.8)"
              (mkRect slotX (slotY + charImageHeight - nameBgHeight)
                 innerWidth nameBgHeight);
            centered "#ffffff" "600 14px" (item_name c)
              (slotX + innerWidth / 2)
              (slotY + charImageHeight - nameBgHeight / 2) ]
      | None =>
          [ FillRect "rgba(0, 0, 0, 0.5)"
              (mkRect slotX slotY innerWidth charImageHeight);
            centered "#ffffff" "600 14px" (item_name c)
              (slotX + innerWidth / 2) (slotY + charImageHeight / 2) ]
      end
  | None =>
      [ StrokeRect "rgba(255, 255, 255, 0.2)" [4; 4]%Z
          (mkRect slotX slotY innerWidth charImageHeight);
        centered "rgba(255, 255, 255, 0.6)" "400 14px" "캐릭터 선택"
          (slotX + innerWidth / 2) (slotY + charImageHeight / 2) ]
  end.

(** Lines 1259-1297. *)
Definition drawCard (i : nat) (slot : CharSlot) : list DrawOp :=
  let slotX := Layout.slotX canvasWidth i in
  let slotY := Layout.slotY_card canvasWidth in
  let cardImageHeight := Layout.cardImageHeight canvasWidth in
  match card slot with
  | Some c =>
      match readyImage imageCache (item_src c) with
      | Some cardImg =>
          let cardWidth := innerWidth in
          let cardHeight := cardImageHeight in
          let cardNameBgHeight : Q := 32 in
          [ DrawImage cardImg (mkRect slotX slotY cardWidth cardHeight);
            FillRect "rgba(0, 0, 0, 0.85)"
              (mkRect slotX (slotY + cardHeight - cardNameBgHeight)
                 cardWidth cardNameBgHeight);
            centered "#ffffff" "600 14px" (item_name c)
              (slotX + cardWidth / 2)
              (slotY + cardHeight - cardNameBgHeight / 2) ]
      | None =>
          [ FillRect "rgba(0, 0, 0, 0.5)"
              (mkRect slotX slotY innerWidth cardImageHeight);
            centered "#ffffff" "600 14px" (item_name c)
              (slotX + innerWidth / 2) (slotY + cardImageHeight / 2) ]
      end
  | None =>
      [ StrokeRect "rgba(255, 255, 255, 0.15)" [2; 2]%Z
          (mkRect slotX slotY innerWidth cardImageHeight);
        centered "rgba(255, 255, 255, 0.8)" "400 12px" "카드 선택"
          (slotX + innerWidth / 2) (slotY + cardImageHeight / 2) ]
  end.

Definition equipKinds : list EquipKind := [weapon; armor; helmet; roon].

Definition equipLabel (kind : EquipKind) : string :=
  match kind with
  | weapon => "W"
  | armor => "A"
  | helmet => "H"
  | roon => "R"
  end.

(** The cell outline drawn for every equipment cell (lines 1318-1323). *)
Definition equipCellFrame (i j : nat) : list DrawOp :=
  [ FillRoundRect "rgba(0, 0, 0, 0.3)" (Layout.equipRect canvasWidth i j) 4;
    StrokeRoundRect "rgba(255, 255, 255, 0.15)"
      (Layout.equipRect canvasWidth i j) 4 ].

(** Body of the [for (let j = 0; j < 4; j++)] loop, lines 1314-1336. *)
Definition drawEquipCell (i j : nat) (kind : EquipKind) (slot : CharSlot)
  : list DrawOp :=
  let equipX := Layout.equipX canvasWidth i j in
  let slotY := Layout.slotY_equip canvasWidth in
  let equipItemWidth := Layout.equipItemWidth canvasWidth in
  equipCellFrame i j ++
  match equipOf (equips slot) kind with
  | Some equip =>
      match readyImage imageCache (item_src equip) with
      | Some equipImg =>
          [ DrawImage equipImg (Layout.equipRect canvasWidth i j) ]
      | None => []
      end
  | None =>
      [ centered "rgba(255, 255, 255, 0.4)" "400 10px" (equipLabel kind)
          (equipX + equipItemWidth / 2)
          (slotY + 6 + Layout.equipSize / 2) ]
  end.

(** One iteration of the character-cell loop, lines 1205-1337. *)
Definition drawSlot (i : nat) (slot : CharSlot) : list DrawOp :=
  [ FillRoundRect "rgba(255, 255, 255, 0.05)" (Layout.cellRect canvasWidth i) 4;
    StrokeRoundRect "rgba(255, 255, 255, 0.1)"
      (Layout.cellRect canvasWidth i) 4 ]
  ++ drawChar i slot
  ++ drawCard i slot
  ++ [ FillRoundRect "rgba(0, 0, 0, 0.2)"
         (Layout.equipRowRect canvasWidth i) 4 ]
  ++ concat (imap (λ j kind, drawEquipCell i j kind slot) equipKinds).

(** [const slot = charSlots[i]] followed by [slot.char]: reading a
    property of [undefined] throws a [TypeError]. *)
Definition drawSlotAt (charSlots : list CharSlot) (i : nat)
  : Completion (list DrawOp) :=
  match charSlots !! i with
  | Some slot => Normal (drawSlot i slot)
  | None => Throw "TypeError"
  end.

(** [for (let i = 0; i < 5; i++)] *)
Definition drawSlots (charSlots : list CharSlot)
  : Completion (list DrawOp) :=
  foldl (λ acc i,
           bindC acc (λ ops,
           bindC (drawSlotAt charSlots i) (λ cell, Normal (ops ++ cell))))
    (Normal []) (seq 0 5).

(** The pet image slot of lane box [i], lines 1402-1425. *)
Definition drawPetImage (i : nat) (pet : option LibraryItem) : list DrawOp :=
  let r := Layout.petImageRect canvasWidth i in
  match pet with
  | Some p =>
      match readyImage imageCache (item_src p) with
      | Some petImg =>
          [ StrokeRect "rgba(255, 255, 255, 0.8)" [] r; DrawImage petImg r ]
      | None => []
      end
  | None =>
      [ StrokeRect "rgba(255, 255, 255, 0.5)" [4; 4]%Z r;
        centered "rgba(255, 255, 255, 0.7)" "600 12px" "빈칸"
          (Layout.petImageX canvasWidth i + Layout.petImageSize / 2)
          (Layout.petImageY canvasWidth + Layout.petImageSize / 2) ]
  end.

(** [for (let i = 0; i < 3; i++)] over [petFormationSlots[i]]. *)
Definition drawPets (petFormationSlots : list (option LibraryItem))
  : list DrawOp :=
  concat ((λ i, drawPetImage i (slotAt petFormationSlots i)) <$> seq 0 3).

End with_canvas.

(** The result of one [drawCanvas] run: the sizes assigned to the canvas
    element and the calls issued, in order. *)
Record Frame := mkFrame {
  bitmapWidth : Q;
  bitmapHeight : Q;
  styleWidth : Q;
  styleHeight : Q;
  background : DrawOp;
  slotOps : list DrawOp;
  petOps : list DrawOp;
  noteOps : list Note.TextDraw
}.

(** [drawCanvas(targetHeight?)], lines 1168-1513.  [canvas] and [ctx]
    tell whether [internalRef.current] and [getContext("2d")] are
    non-null; [devicePixelRatio] is [window.devicePixelRatio].  [None]
    is the early [return]. *)
Definition drawCanvas (canvas ctx : bool) (devicePixelRatio : Q)
    (imageCache : gmap string Image) (measureText : Note.jsstring → Q)
    (charSlots : list CharSlot)
    (petFormationSlots : list (option LibraryItem))
    (noteText : Note.jsstring) (width : Q) (targetHeight : option Q)
  : Completion (option Frame) :=
  if negb canvas then Normal None
  else if negb ctx then Normal None
  else
    let dpr := if Qeq_bool devicePixelRatio 0 then 1 else devicePixelRatio in
    let canvasWidth := width in
    let calculatedHeight := Layout.calculatedHeight canvasWidth in
    let canvasHeight :=
      match targetHeight with
      | Some h => if Qeq_bool h 0 then calculatedHeight else h
      | None => calculatedHeight
      end in
    bindC (drawSlots imageCache canvasWidth charSlots) (λ cells,
      Normal (Some
        (mkFrame (canvasWidth * dpr) (canvasHeight * dpr)
           canvasWidth canvasHeight
           (FillRect "#0b0b14" (mkRect 0 0 canvasWidth canvasHeight))
           cells
           (drawPets imageCache canvasWidth petFormationSlots)
           (Note.drawNote measureText canvasWidth noteText)))).

(** The five pristine slots of [initialCharSlots]. *)
Definition emptyEquips : Equips := mkEquips None None None None.
Definition initialCharSlots : list CharSlot :=
  (λ idx, mkCharSlot ("slot-" +:+ pretty (idx + 1)%nat) None None emptyEquips)
  <$> seq 0 5.

End Compositor.

(** ** Image cache (page.tsx, lines 1052-1072)

    [loadImage] touches two pieces of state: the module-level
    [imageCache] map and the [Image] elements it creates, each of which
    is one load handed to the browser.  The browser later fires [onload]
    or [onerror] on such an element; these are the events of the step
    function. *)

Module AssetCache.

Record CacheState := mkCache {
  imageCache : gmap string Image;
  (** elements created by [loadImage] whose load has not settled yet *)
  loading : list Image;
  (** number of [new Image()] calls made so far *)
  created : nat
}.

Definition initial : CacheState := mkCache ∅ [] 0.

(** What the caller gets back: an already resolved promise, or a new
    promise tied to a freshly created element. *)
Inductive LoadResult :=
  | Resolved (img : Image)
  | Pending (img : Image).

(** The [new Promise(...)] branch: create the element and set [src]. *)
Definition startLoad (src : string) (st : CacheState)
  : LoadResult * CacheState :=
  let img := mkImage (created st) src false in
  (Pending img,
   mkCache (imageCache st) (loading st ++ [img]) (S (created st))).

Definition loadImage (src : string) (st : CacheState)
  : LoadResult * CacheState :=
  match imageCache st !! src with
  | Some cached =>
      if complete cached then (Resolved cached, st) else startLoad src st
  | None => startLoad src st
  end.

Definition isElement (id : nat) (img : Image) : Prop := img_id img = id.

#[global] Instance isElement_dec id img : Decision (isElement id img).
Proof. unfold isElement. apply _. Defined.

Definition dropElement (id : nat) (l : list Image) : list Image :=
  filter (λ img, ¬ isElement id img) l.

(** [img.onload]: [imageCache.set(src, img); resolve(img)]. *)
Definition onload (id : nat) (st : CacheState) : CacheState :=
  match list_find (isElement id) (loading st) with
  | Some (_, img) =>
      let loaded := mkImage (img_id img) (img_src img) true in
      mkCache (<[img_src img := loaded]> (imageCache st))
        (dropElement id (loading st)) (created st)
  | None => st
  end.

(** [img.onerror = reject]: the cache is not touched. *)
Definition onerror (id : nat) (st : CacheState) : CacheState :=
  mkCache (imageCache st) (dropElement id (loading st)) (created st).

Inductive Event :=
  | Request (src : string)
  | Loaded (id : nat)
  | Failed (id : nat).

Definition step (st : CacheState) (ev : Event) : CacheState :=
  match ev with
  | Request src => (loadImage src st).2
  | Loaded id => onload id st
  | Failed id => onerror id st
  end.

Definition run (evs : list Event) (st : CacheState) : CacheState :=
  foldl step st evs.

(** Loads in flight for one source. *)
Definition loadingFor (src : string) (st : CacheState) : list Image :=
  filter (λ img, img_src img = src) (loading st).

(** Every cached element is complete and filed under its own source. *)
Definition cacheSound (st : CacheState) : Prop :=
  ∀ src img, imageCache st !! src = Some img →
    complete img = true ∧ img_src img = src.

End AssetCache.

(** ** Sample catalog entries used by the concrete evaluations below *)

Definition charA := mkItem "char-1" "A" "/assets/char/a.png".
Definition charB := mkItem "char-2" "B" "/assets/char/b.png".
Definition charC := mkItem "char-3" "C" "/assets/char/c.png".
Definition charD := mkItem "char-4" "D" "/assets/char/d.png".
Definition charE := mkItem "char-5" "E" "/assets/char/e.png".
Definition charF := mkItem "char-6" "F" "/assets/char/f.png".
Definition petP := mkItem "pet-1" "P" "/assets/pet/p.png".
Definition petR := mkItem "pet-2" "R" "/assets/pet/r.png".
Definition sword := mkItem "equip-1" "Sword" "/assets/equip/weapon/sword.png".

(** A slot whose weapon is assigned and nothing else. *)
Definition armedSlot : CharSlot :=
  mkCharSlot "slot-1" None None (mkEquips (Some sword) None None None).

(** Five placed characters: back and mid lanes full, one in front. *)
Definition fullFormation : list (option LibraryItem) :=
  [Some charA; Some charB; Some charC; Some charD; Some charE; None].

(** ** Formation: derived notions used by the further properties *)

(** No asset id occupies two positions. *)
Definition uniqueIds (s : list (option LibraryItem)) : Prop :=
  ∀ i j a b, slotAt s i = Some a → slotAt s j = Some b →
    item_id a = item_id b → i = j.

(** The position, if any, that an [assignFormation] call inspects besides
    its target: [existingIdx]. *)
Definition existingOf (item : option LibraryItem)
    (prev : list (option LibraryItem)) : option nat :=
  match item with
  | Some a => findIndex (sameId a) prev
  | None => None
  end.

(** A sequence of [assignPetFormation] calls applied in order. *)
Definition runPetCalls (calls : list (nat * option LibraryItem))
    (s : list (option LibraryItem)) : list (option LibraryItem) :=
  foldl (λ st c, PetFormation.assignPetFormation c.1 c.2 st) s calls.

(** The click handler of a formation slot button (page.tsx, lines
    743-751): an occupied slot is cleared, an empty one receives the
    picked character, if any. *)
Definition clickFormationSlot (slotIdx : nat)
    (formationPick : option LibraryItem)
    (formationSlots : list (option LibraryItem))
  : list (option LibraryItem) :=
  match slotAt formationSlots slotIdx with
  | Some _ => Formation.assignFormation slotIdx None formationSlots
  | None =>
      match formationPick with
      | Some pick =>
          Formation.assignFormation slotIdx (Some pick) formationSlots
      | None => formationSlots
      end
  end.

Definition runClicks (clicks : list (nat * option LibraryItem))
    (s : list (option LibraryItem)) : list (option LibraryItem) :=
  foldl (λ st c, clickFormationSlot c.1 c.2 st) s clicks.

(** ** Roster slots, equipment kinds and the picker
    (page.tsx, lines 130-217, 289-322 and 1001-1007; the later copy of
    the page repeats the character, card and equipment branches at lines
    1625-1703 and [getEquipKind] at lines 1044-1050) *)

(** [hay.includes(needle)] *)
Fixpoint includes (needle hay : string) : bool :=
  match hay with
  | EmptyString => String.prefix needle EmptyString
  | String _ rest => String.prefix needle hay || includes needle rest
  end.

(** [seg] occurs somewhere inside [src]. *)
Definition contains (seg src : string) : Prop :=
  ∃ pre post, src = pre +:+ seg +:+ post.

(** Result of [getEquipKind]: one of the four kinds, or ["other"]. *)
Inductive EquipClass :=
  | Kind (k : EquipKind)
  | other.

#[global] Instance EquipKind_eq_dec : EqDecision EquipKind.
Proof. solve_decision. Defined.

#[global] Instance EquipClass_eq_dec : EqDecision EquipClass.
Proof. solve_decision. Defined.

Definition getEquipKind (src : string) : EquipClass :=
  if includes "/weapon/" src then Kind weapon
  else if includes "/armor/" src then Kind armor
  else if includes "/helmet/" src then Kind helmet
  else if includes "/roon/" src then Kind roon
  else other.

(** The path segment that [getEquipKind] looks for. *)
Definition segmentOf (k : EquipKind) : string :=
  match k with
  | weapon => "/weapon/"
  | armor => "/armor/"
  | helmet => "/helmet/"
  | roon => "/roon/"
  end.

(** Position of a kind in the order in which [getEquipKind] tests. *)
Definition kindRank (k : EquipKind) : nat :=
  match k with
  | weapon => 0
  | armor => 1
  | helmet => 2
  | roon => 3
  end.

(** ["card" | "char" | "pet" | "equip"], used both as [ItemType] and as
    the [type] of a slot target. *)
Inductive ItemType := TCard | TChar | TPet | TEquip.

#[global] Instance ItemType_eq_dec : EqDecision ItemType.
Proof. solve_decision. Defined.

Record SlotTarget := mkTarget {
  target_type : ItemType;
  slotIndex : nat;
  equipKind : option EquipKind
}.

Record PageState := mkPage {
  picker : option ItemType;
  slotTarget : option SlotTarget;
  charSlots : list CharSlot;
  petSlots : list (option LibraryItem)
}.

Module Roster.

Definition withChar (item : option LibraryItem) (slot : CharSlot)
  : CharSlot :=
  mkCharSlot (slot_id slot) item (card slot) (equips slot).

Definition withCard (item : option LibraryItem) (slot : CharSlot)
  : CharSlot :=
  mkCharSlot (slot_id slot) (char slot) item (equips slot).

(** [{ ...equips, [kind]: item }] *)
Definition setEquip (kind : EquipKind) (item : option LibraryItem)
    (e : Equips) : Equips :=
  match kind with
  | weapon => mkEquips item (eq_armor e) (eq_helmet e) (eq_roon e)
  | armor => mkEquips (eq_weapon e) item (eq_helmet e) (eq_roon e)
  | helmet => mkEquips (eq_weapon e) (eq_armor e) item (eq_roon e)
  | roon => mkEquips (eq_weapon e) (eq_armor e) (eq_helmet e) item
  end.

Definition withEquip (kind : EquipKind) (item : option LibraryItem)
    (slot : CharSlot) : CharSlot :=
  mkCharSlot (slot_id slot) (char slot) (card slot)
    (setEquip kind item (equips slot)).

(** [next[idx] = f(next[idx])] on a copy of [charSlots].  For an index
    without a slot JavaScript would store an object that lacks the other
    fields of a slot; such a value is not a [CharSlot], and the result is
    [None].  The buttons only pass indices of existing slots. *)
Definition updateSlot (idx : nat) (f : CharSlot → CharSlot)
    (prev : list CharSlot) : option (list CharSlot) :=
  match prev !! idx with
  | Some slot => Some (<[idx := f slot]> prev)
  | None => None
  end.

(** [handleSelectToSlot(item)], lines 134-175. *)
Definition handleSelectToSlot (item : LibraryItem) (st : PageState)
  : option PageState :=
  match slotTarget st with
  | None => Some st
  | Some t =>
      match target_type t with
      | TPet =>
          Some (mkPage None None (charSlots st)
                  (js_set (petSlots st) (slotIndex t) (Some item)))
      | TChar =>
          slots ← updateSlot (slotIndex t) (withChar (Some item))
                    (charSlots st);
          Some (mkPage None None slots (petSlots st))
      | TCard =>
          slots ← updateSlot (slotIndex t) (withCard (Some item))
                    (charSlots st);
          Some (mkPage None None slots (petSlots st))
      | TEquip =>
          match equipKind t with
          | Some kind =>
              slots ← updateSlot (slotIndex t) (withEquip kind (Some item))
                        (charSlots st);
              Some (mkPage None None slots (petSlots st))
          | None => Some (mkPage None None (charSlots st) (petSlots st))
          end
      end
  end.

(** [resetSlot(type, idx, equipKind?)], lines 289-322; the character
    branch copies [initialCharSlots[idx]].  As in [updateSlot], [None]
    stands for a result that is no list of slots: a copy of the missing
    [initialCharSlots[idx]], or a write that leaves holes. *)
Definition resetSlot (type : ItemType) (idx : nat)
    (kind : option EquipKind) (st : PageState) : option PageState :=
  match type with
  | TPet =>
      Some (mkPage (picker st) (slotTarget st) (charSlots st)
              (js_set (petSlots st) idx None))
  | TChar =>
      pristine ← Compositor.initialCharSlots !! idx;
      if decide (idx < length (charSlots st)) then
        Some (mkPage (picker st) (slotTarget st)
                (<[idx := pristine]> (charSlots st)) (petSlots st))
      else if decide (idx = length (charSlots st)) then
        Some (mkPage (picker st) (slotTarget st)
                (charSlots st ++ [pristine]) (petSlots st))
      else None
  | TCard =>
      slots ← updateSlot idx (withCard None) (charSlots st);
      Some (mkPage (picker st) (slotTarget st) slots (petSlots st))
  | TEquip =>
      match kind with
      | Some k =>
          slots ← updateSlot idx (withEquip k None) (charSlots st);
          Some (mkPage (picker st) (slotTarget st) slots (petSlots st))
      | None => Some st
      end
  end.

(** [xs.map(x => x?.id).filter(Boolean)] as a [Set]: the ids that are
    present and not the empty string. *)
Definition usedIds (items : list (option LibraryItem)) : gset string :=
  list_to_set
    (filter (λ i, i ≠ "") (omap (λ o, item_id <$> o) items)).

Section with_catalog.
(** The catalog lists and the search test
    [query ? item.name.toLowerCase().includes(query) : true] for the
    current search text. *)
Variable libraries : ItemType → list LibraryItem.
Variable searchHit : LibraryItem → bool.

(** [currentId]: reading [.char] or [.card] of a missing slot throws. *)
Definition currentIdOf (t : SlotTarget) (st : PageState)
  : Completion (option string) :=
  match target_type t with
  | TChar =>
      match charSlots st !! slotIndex t with
      | Some slot => Normal (item_id <$> char slot)
      | None => Throw "TypeError"
      end
  | TCard =>
      match charSlots st !! slotIndex t with
      | Some slot => Normal (item_id <$> card slot)
      | None => Throw "TypeError"
      end
  | TPet => Normal (item_id <$> slotAt (petSlots st) (slotIndex t))
  | TEquip => Normal None
  end.

Definition filterAvailable (st : PageState) (currentId : option string)
    (entries : list LibraryItem) (type : ItemType) : list LibraryItem :=
  let usedCharIds := usedIds (char <$> charSlots st) in
  let usedCardIds := usedIds (card <$> charSlots st) in
  let usedPetIds := usedIds (petSlots st) in
  let keep (item : LibraryItem) : bool :=
    match type with
    | TChar => bool_decide (item_id item ∉ usedCharIds)
               || bool_decide (Some (item_id item) = currentId)
    | TCard => bool_decide (item_id item ∉ usedCardIds)
               || bool_decide (Some (item_id item) = currentId)
    | TPet => bool_decide (item_id item ∉ usedPetIds)
              || bool_decide (Some (item_id item) = currentId)
    | TEquip => true
    end in
  filter (λ item, keep item = true) entries.

(** The list that [renderSlotPickerList] renders, one button per entry;
    [None] is the early [return null]. *)
Definition renderSlotPickerList (st : PageState)
  : Completion (option (list LibraryItem)) :=
  match picker st, slotTarget st with
  | Some p, Some t =>
      bindC (currentIdOf t st) (λ currentId,
        let entries :=
          match target_type t, equipKind t with
          | TEquip, Some kind =>
              filter (λ eq, getEquipKind (item_src eq) = Kind kind
                            ∨ getEquipKind (item_src eq) = other)
                (libraries TEquip)
          | _, _ => filterAvailable st currentId (libraries p) p
          end in
        Normal (Some (filter (λ item, searchHit item = true) entries)))
  | _, _ => Normal None
  end.

End with_catalog.

(** No character id, card id or pet id (other than the empty string,
    which [filter(Boolean)] drops from the used sets) is held twice. *)
Definition uniqueField (get : CharSlot → option LibraryItem)
    (slots : list CharSlot) : Prop :=
  ∀ i j si sj a b,
    slots !! i = Some si → slots !! j = Some sj →
    get si = Some a → get sj = Some b →
    item_id a = item_id b → item_id a ≠ "" → i = j.

Definition uniquePets (pets : list (option LibraryItem)) : Prop :=
  ∀ i j a b, slotAt pets i = Some a → slotAt pets j = Some b →
    item_id a = item_id b → item_id a ≠ "" → i = j.

Definition rosterUnique (st : PageState) : Prop :=
  uniqueField char (charSlots st) ∧ uniqueField card (charSlots st)
  ∧ uniquePets (petSlots st).

(** Every equipped item is of the kind of its cell, or of no kind. *)
Definition equipsClassified (slots : list CharSlot) : Prop :=
  ∀ i slot kind e,
    slots !! i = Some slot → equipOf (equips slot) kind = Some e →
    getEquipKind (item_src e) = Kind kind ∨ getEquipKind (item_src e) = other.

(** Resetting the character cells 0..4 one after the other. *)
Definition resetAllChars (st : PageState) : option PageState :=
  foldl (λ acc idx, acc ≫= resetSlot TChar idx None) (Some st) (seq 0 5).

End Roster.

(** A small catalog for the concrete evaluations. *)
Definition sampleLibraries (type : ItemType) : list LibraryItem :=
  match type with
  | TCard => []
  | TChar => [charA; charB]
  | TPet => [petP; petR]
  | TEquip => [sword]
  end.

(** The page as first rendered: nothing picked, five pristine slots,
    three empty pet slots. *)
Definition initialPage : PageState :=
  mkPage None None Compositor.initialCharSlots [None; None; None].

(** ** Lane boxes: drawn rectangle and overlay button
    (page.tsx, lines 1355-1379 and 1953-1981) *)

Module PetOverlay.
Open Scope Q_scope.

(** [roundRect(ctx, petX, petBoxY, petBoxWidth, petBoxHeight, 4)] *)
Definition drawnBox (canvasWidth : Q) (i : nat) : Rect :=
  mkRect (Layout.petX canvasWidth i) (Layout.petBoxY canvasWidth)
    (Layout.petBoxWidth canvasWidth) Layout.petBoxHeight.

(** Height of the first overlay row: the cells' [height] style. *)
Definition slotRowHeight : Q :=
  Overlay.charImageHeight Overlay.canvasLayout
  + Overlay.cardImageHeight Overlay.canvasLayout
  + Overlay.equipSize Overlay.canvasLayout + 32.

(** The overlay box is a column flex container: its first row carries
    [marginBottom: 12px], its second row [marginTop: 12px], and margins of
    flex items do not collapse. *)
Definition rowMarginBottom : Q := 12.
Definition rowMarginTop : Q := 12.
Definition petRowTop : Q :=
  Overlay.cellTop + slotRowHeight + rowMarginBottom + rowMarginTop.
Definition petRowLeft : Q :=
  Overlay.overlayOriginX + Overlay.padding Overlay.canvasLayout.

(** The button of lane [idx]: [left: petX], [top: 8px],
    [width: petBoxWidth], [height: 144px] inside the pet box. *)
Definition petButton (idx : nat) : Rect :=
  let petSectionWidth :=
    (1280 - Overlay.padding Overlay.canvasLayout * 2 - 12) * (6 / 10) in
  let petBoxWidth := (petSectionWidth - 16 - 8) / 3 in
  let petX := 8 + ofNat idx * (petBoxWidth + 4) in
  mkRect (petRowLeft + petX) (petRowTop + 8) petBoxWidth 144.

End PetOverlay.

(** ** Batch loading of the images a frame needs
    (page.tsx, lines 1038-1042 and 1127-1147) *)

Module Loader.

(** The lane labels ["후열"], ["중열"], ["전열"]. *)
Inductive LaneLabel := laneBack | laneMid | laneFront.

Definition getLaneIconSrc (label : LaneLabel) : string :=
  match label with
  | laneBack => "/assets/lane-back.png"
  | laneMid => "/assets/lane-mid.png"
  | laneFront => "/assets/lane-front.png"
  end.

(** [imageSrcs.add(x)] on a [Set], kept in insertion order. *)
Definition setAdd (s : list string) (x : string) : list string :=
  if decide (x ∈ s) then s else s ++ [x].

(** [if (asset) imageSrcs.add(asset.src)] *)
Definition addAsset (s : list string) (asset : option LibraryItem)
  : list string :=
  match asset with
  | Some a => setAdd s (item_src a)
  | None => s
  end.

(** [Object.values(slot.equips)] *)
Definition equipValues (e : Equips) : list (option LibraryItem) :=
  [eq_weapon e; eq_armor e; eq_helmet e; eq_roon e].

(** Body of [charSlots.forEach]. *)
Definition addSlot (s : list string) (slot : CharSlot) : list string :=
  foldl addAsset (addAsset (addAsset s (char slot)) (card slot))
    (equipValues (equips slot)).

Definition imageSrcs (charSlots : list CharSlot)
    (petFormationSlots : list (option LibraryItem)) : list string :=
  let s := foldl addSlot [] charSlots in
  let s := foldl addAsset s petFormationSlots in
  let s := setAdd s (getLaneIconSrc laneBack) in
  let s := setAdd s (getLaneIconSrc laneMid) in
  setAdd s (getLaneIconSrc laneFront).

(** [Array.from(imageSrcs).map(loadImage)]: the calls are made one after
    the other, before any load can settle. *)
Definition loadNext
    (acc : list AssetCache.LoadResult * AssetCache.CacheState)
    (src : string) : list AssetCache.LoadResult * AssetCache.CacheState :=
  let r := AssetCache.loadImage src acc.2 in (acc.1 ++ [r.1], r.2).

Definition loadAll (srcs : list string) (st : AssetCache.CacheState)
  : list AssetCache.LoadResult * AssetCache.CacheState :=
  foldl loadNext ([], st) srcs.

Definition loadAllImages (charSlots : list CharSlot)
    (petFormationSlots : list (option LibraryItem))
    (st : AssetCache.CacheState)
  : list AssetCache.LoadResult * AssetCache.CacheState :=
  loadAll (imageSrcs charSlots petFormationSlots) st.

(** Every asset a roster shows, slot by slot, then the pets. *)
Definition assetsOf (slot : CharSlot) : list (option LibraryItem) :=
  [char slot; card slot] ++ equipValues (equips slot).

Definition shownAssets (charSlots : list CharSlot)
    (petFormationSlots : list (option LibraryItem))
  : list (option LibraryItem) :=
  (charSlots ≫= assetsOf) ++ petFormationSlots.

Definition laneIcons : list string :=
  getLaneIconSrc <$> [laneBack; laneMid; laneFront].

(** Sources of a list that are not ready in a cache. *)
Definition notReady (cache : gmap string Image) (srcs : list string)
  : list string :=
  filter (λ src, Compositor.readyImage cache src = None) srcs.

Definition isRequest (ev : AssetCache.Event) : Prop :=
  match ev with AssetCache.Request _ => True | _ => False end.

#[global] Instance isRequest_dec ev : Decision (isRequest ev).
Proof. destruct ev; simpl; apply _. Defined.

Definition isLoaded (ev : AssetCache.Event) : Prop :=
  match ev with AssetCache.Loaded _ => True | _ => False end.

#[global] Instance Event_eq_dec : EqDecision AssetCache.Event.
Proof. solve_decision. Defined.

(** The elements in flight are distinct objects, numbered in the order
    of their creation. *)
Definition idsFresh (st : AssetCache.CacheState) : Prop :=
  NoDup (img_id <$> AssetCache.loading st) ∧
  Forall (λ img, img_id img < AssetCache.created st)
    (AssetCache.loading st).

End Loader.

(** ** The editor store (src/unnamed/part_000, lines 4-77)

    The zustand store of free canvas items.  [set] merges the returned
    fields into the state, so an action that returns only [items] keeps
    [selectedId] and the other way round.  [zIndex] values are integers;
    [nanoid()] is modelled by the id it returns, passed to [addItem]. *)

Module Store.

Record CanvasItem := mkCanvasItem {
  ci_id : string;
  ci_type : ItemType;
  ci_src : string;
  ci_x : Q;
  ci_y : Q;
  ci_width : Q;
  ci_height : Q;
  ci_rotation : Q;
  zIndex : Z
}.

Record State := mkState {
  items : list CanvasItem;
  selectedId : option string
}.

Definition initialState : State := mkState [] None.

(** [state.items.reduce((acc, cur) => Math.max(acc, cur.zIndex), 0)] *)
Definition maxZ (its : list CanvasItem) : Z :=
  foldl (λ acc cur, Z.max acc (zIndex cur)) 0%Z its.

Definition addItem (newId : string) (type : ItemType) (src : string)
    (state : State) : State :=
  let newItem :=
    mkCanvasItem newId type src
      (80 + ofNat (length (items state)) * 10)%Q
      (80 + ofNat (length (items state)) * 10)%Q
      220%Q 300%Q 0%Q (maxZ (items state) + 1)%Z in
  mkState (items state ++ [newItem]) (Some newId).

(** [Partial<CanvasItem>]: the keys that are present. *)
Record Payload := mkPayload {
  p_id : option string;
  p_type : option ItemType;
  p_src : option string;
  p_x : option Q;
  p_y : option Q;
  p_width : option Q;
  p_height : option Q;
  p_rotation : option Q;
  p_zIndex : option Z
}.

(** [{ ...item, ...payload }] *)
Definition merge (item : CanvasItem) (payload : Payload) : CanvasItem :=
  mkCanvasItem
    (default (ci_id item) (p_id payload))
    (default (ci_type item) (p_type payload))
    (default (ci_src item) (p_src payload))
    (default (ci_x item) (p_x payload))
    (default (ci_y item) (p_y payload))
    (default (ci_width item) (p_width payload))
    (default (ci_height item) (p_height payload))
    (default (ci_rotation item) (p_rotation payload))
    (default (zIndex item) (p_zIndex payload)).

Definition updateItem (id : string) (payload : Payload) (state : State)
  : State :=
  mkState
    ((λ item, if decide (ci_id item = id) then merge item payload else item)
       <$> items state)
    (selectedId state).

Definition setSelected (id : option string) (state : State) : State :=
  mkState (items state) id.

Definition removeItem (id : string) (state : State) : State :=
  mkState
    (filter (λ item, ci_id item ≠ id) (items state))
    (if decide (selectedId state = Some id) then None
     else selectedId state).

Definition removeSelected (state : State) : State :=
  mkState
    (filter (λ item, Some (ci_id item) ≠ selectedId state) (items state))
    None.

(** [{ ...item, zIndex: maxZ + 1 }] *)
Definition raised (z : Z) (item : CanvasItem) : CanvasItem :=
  mkCanvasItem (ci_id item) (ci_type item) (ci_src item) (ci_x item)
    (ci_y item) (ci_width item) (ci_height item) (ci_rotation item) z.

Definition bringToFront (id : string) (state : State) : State :=
  mkState
    ((λ item,
        if decide (ci_id item = id)
        then raised (maxZ (items state) + 1)%Z item else item)
       <$> items state)
    (selectedId state).

(** The actions of the store, as calls. *)
Inductive Action :=
  | AddItem (newId : string) (type : ItemType) (src : string)
  | UpdateItem (id : string) (payload : Payload)
  | SetSelected (id : option string)
  | RemoveItem (id : string)
  | RemoveSelected
  | BringToFront (id : string).

Definition act (state : State) (a : Action) : State :=
  match a with
  | AddItem newId type src => addItem newId type src state
  | UpdateItem id payload => updateItem id payload state
  | SetSelected id => setSelected id state
  | RemoveItem id => removeItem id state
  | RemoveSelected => removeSelected state
  | BringToFront id => bringToFront id state
  end.

Definition runActions (actions : list Action) (state : State) : State :=
  foldl act state actions.

Definition ids (state : State) : list string := ci_id <$> items state.

(** How the editor uses the store: a generated id is not the id of an
    item on the canvas, an update moves, resizes or rotates an item but
    leaves its id and layer alone, and only an item on the canvas is
    selected. *)
Definition allowed (state : State) (a : Action) : Prop :=
  match a with
  | AddItem newId _ _ => newId ∉ ids state
  | UpdateItem _ payload => p_id payload = None ∧ p_zIndex payload = None
  | SetSelected (Some id) => id ∈ ids state
  | _ => True
  end.

Fixpoint allowedFrom (state : State) (actions : list Action) : Prop :=
  match actions with
  | [] => True
  | a :: rest => allowed state a ∧ allowedFrom (act state a) rest
  end.

(** Ids and layers are distinct, layers are positive, and the selection,
    if any, is an item on the canvas. *)
Definition wellFormed (state : State) : Prop :=
  NoDup (ids state) ∧
  NoDup (zIndex <$> items state) ∧
  Forall (λ item, (0 < zIndex item)%Z) (items state) ∧
  ∀ id, selectedId state = Some id → id ∈ ids state.

End Store.

(** * Theorems *)

(** ** Array reads and writes *)

Lemma slotAt_js_set arr i v j :
  slotAt (js_set arr i v) j = if decide (j = i) then v else slotAt arr j.
Proof.
  unfold slotAt, js_set.
  destruct (decide (i < length arr)) as [Hlt|Hge].
  - destruct (decide (j = i)) as [->|Hne].
    + by rewrite list_lookup_insert_eq.
    + by rewrite list_lookup_insert_ne.
  - destruct (decide (j = i)) as [->|Hne].
    + rewrite lookup_app_r by lia.
      rewrite lookup_app_r by (rewrite length_replicate; lia).
      rewrite length_replicate.
      by replace (i - length arr - (i - length arr)) with 0 by lia.
    + destruct (decide (j < length arr)) as [Hj|Hj].
      * by rewrite lookup_app_l.
      * rewrite (lookup_ge_None_2 arr j) by lia.
        rewrite lookup_app_r by lia.
        destruct (decide (j - length arr < i - length arr)) as [Hk|Hk].
        -- rewrite lookup_app_l by (rewrite length_replicate; lia).
           by rewrite lookup_replicate_2.
        -- rewrite lookup_ge_None_2; [done|].
           rewrite length_app, length_replicate. simpl. lia.
Qed.

Lemma js_set_length_lt arr i v :
  i < length arr → length (js_set arr i v) = length arr.
Proof.
  intros H. unfold js_set. rewrite decide_True by done. apply length_insert.
Qed.

Lemma js_set_same arr i :
  arr !! i = Some None → js_set arr i None = arr.
Proof.
  intros H. unfold js_set.
  rewrite decide_True by (by eapply lookup_lt_Some).
  by apply list_insert_id.
Qed.

Lemma findIndex_Some {A} (p : A → Prop) `{!∀ x, Decision (p x)} arr e :
  findIndex p arr = Some e →
  ∃ x, arr !! e = Some x ∧ p x ∧ ∀ j y, arr !! j = Some y → j < e → ¬ p y.
Proof.
  unfold findIndex. intros Hf.
  destruct (list_find p arr) as [[i x]|] eqn:E; simplify_eq/=.
  apply list_find_Some in E as (? & ? & ?). eauto.
Qed.

Lemma findIndex_None {A} (p : A → Prop) `{!∀ x, Decision (p x)} arr :
  findIndex p arr = None → Forall (λ x, ¬ p x) arr.
Proof.
  unfold findIndex. intros Hf.
  destruct (list_find p arr) as [[i x]|] eqn:E; simplify_eq/=.
  by apply list_find_None in E.
Qed.

Lemma findIndex_sameId it prev e :
  findIndex (sameId it) prev = Some e →
  ∃ x, prev !! e = Some (Some x) ∧ item_id x = item_id it.
Proof.
  intros Hf. apply findIndex_Some in Hf as (s & Hs & Hp & _).
  unfold sameId in Hp. destruct s as [x|]; simplify_eq/=. eauto.
Qed.

(** ** Occupancy counting *)

Section formation_counting.
Import Formation.

Lemma occFrom_app P b l1 l2 :
  occFrom P b (l1 ++ l2) = occFrom P b l1 + occFrom P (b + length l1) l2.
Proof.
  revert b. induction l1 as [|s l1 IH]; intros b; simpl.
  - by rewrite Nat.add_0_r.
  - rewrite IH. replace (S b + length l1) with (b + S (length l1)) by lia. lia.
Qed.

Lemma occFrom_replicate_None P b n : occFrom P b (replicate n None) = 0.
Proof.
  revert b. induction n as [|n IH]; intros b; simpl; [done|].
  by rewrite IH.
Qed.

Lemma occFrom_insert P b arr i v :
  i < length arr →
  occFrom P b (<[i:=v]> arr) + ind (slotAt arr i) (P (b + i))
  = occFrom P b arr + ind v (P (b + i)).
Proof.
  revert b i. induction arr as [|s arr IH]; intros b i Hi; simpl in *; [lia|].
  destruct i as [|i]; simpl.
  - rewrite Nat.add_0_r. unfold ind, slotAt. simpl.
    destruct (bool_decide (is_Some v) && P b),
      (bool_decide (is_Some s) && P b); lia.
  - specialize (IH (S b) i ltac:(lia)).
    replace (b + S i) with (S b + i) by lia.
    change (slotAt (s :: arr) (S i)) with (slotAt arr i). lia.
Qed.

Lemma occFrom_js_set P arr i v :
  occFrom P 0 (js_set arr i v) + ind (slotAt arr i) (P i)
  = occFrom P 0 arr + ind v (P i).
Proof.
  unfold js_set. destruct (decide (i < length arr)) as [Hlt|Hge].
  - by apply (occFrom_insert P 0).
  - rewrite !occFrom_app, occFrom_replicate_None. simpl.
    rewrite length_replicate.
    replace (length arr + (i - length arr)) with i by lia.
    unfold slotAt. rewrite lookup_ge_None_2 by lia.
    unfold ind at 1. simpl. unfold ind. lia.
Qed.

Lemma filled_occFrom b prev : filled prev = occFrom (λ _, true) b prev.
Proof.
  unfold filled. revert b. induction prev as [|s prev IH]; intros b; [done|].
  rewrite filter_cons. simpl. rewrite andb_true_r.
  destruct (decide (is_Some s)) as [Hs|Hs].
  - rewrite bool_decide_eq_true_2 by done. simpl. by rewrite (IH (S b)).
  - rewrite bool_decide_eq_false_2 by done. simpl. by rewrite (IH (S b)).
Qed.

Lemma filled_occupied prev : filled prev = occupied prev.
Proof. apply filled_occFrom. Qed.

Lemma countStep_length counts p : length (countStep counts p) = length counts.
Proof. unfold countStep. destruct (p.2); [apply length_alter|done]. Qed.

Lemma laneCounts_from counts b prev k :
  k < length counts →
  foldl countStep counts (zip (seq b (length prev)) prev) !!! k
  = (counts !!! k
     + Z.of_nat (occFrom (λ i, bool_decide (laneOf i = k)) b prev))%Z.
Proof.
  revert counts b. induction prev as [|s prev IH]; intros counts b Hk; simpl.
  - lia.
  - rewrite IH by (by rewrite countStep_length).
    unfold countStep. simpl. destruct s as [x|]; simpl; [|done].
    rewrite list_lookup_total_alter.
    destruct (decide (laneOf b = k)) as [Heq|Hne].
    + rewrite bool_decide_eq_true_2 by done.
      rewrite decide_True by (split; [done|lia]). rewrite Heq. lia.
    + rewrite bool_decide_eq_false_2 by done.
      rewrite decide_False by (intros [? ?]; done). lia.
Qed.

Lemma laneCounts_length prev : length (laneCounts prev) = 3.
Proof.
  unfold laneCounts. generalize (zip (seq 0 (length prev)) prev) as l.
  assert (length [0; 0; 0]%Z = 3) as Hc by done. revert Hc.
  generalize [0; 0; 0]%Z as c. intros c Hc l. revert c Hc.
  induction l as [|p l IH]; intros c Hc; simpl; [done|].
  apply IH. by rewrite countStep_length.
Qed.

Lemma laneCounts_laneOccupied prev k :
  k < 3 → laneCounts prev !!! k = Z.of_nat (laneOccupied k prev).
Proof.
  intros Hk. unfold laneCounts, laneOccupied.
  rewrite laneCounts_from by (simpl; lia).
  destruct k as [|[|[|k]]]; simpl; lia.
Qed.

Lemma laneOf_lt idx : laneOf idx < 3.
Proof. unfold laneOf. repeat case_decide; lia. Qed.

End formation_counting.

(** ** Capacity invariant of the character formation *)

Section formation_invariant.
Import Formation.

Lemma ind_None b : ind None b = 0.
Proof. done. Qed.

Lemma ind_Some x b : ind (Some x) b = if b then 1 else 0.
Proof. unfold ind. by rewrite bool_decide_eq_true_2 by eauto. Qed.

Lemma occFrom_vacate P arr e :
  occFrom P 0 (js_set arr e None) + ind (slotAt arr e) (P e)
  = occFrom P 0 arr.
Proof. rewrite occFrom_js_set, ind_None. lia. Qed.

Lemma occFrom_vacate_le P arr e :
  occFrom P 0 (js_set arr e None) ≤ occFrom P 0 arr.
Proof. pose proof (occFrom_vacate P arr e). lia. Qed.

Lemma capacityOk_vacate arr e : capacityOk arr → capacityOk (js_set arr e None).
Proof.
  unfold capacityOk, occupied, laneOccupied. intros (H & H0 & H1 & H2).
  repeat split; (etrans; [apply occFrom_vacate_le|done]).
Qed.

Lemma occFrom_lane_other lane arr index x :
  laneOf index ≠ lane →
  laneOccupied lane (js_set arr index x) = laneOccupied lane arr.
Proof.
  intros Hne. unfold laneOccupied.
  pose proof (occFrom_js_set (λ i, bool_decide (laneOf i = lane)) arr index x)
    as E.
  simpl in E. rewrite bool_decide_eq_false_2 in E by done.
  unfold ind in E. rewrite !andb_false_r in E. lia.
Qed.

Lemma place_capacity prev next nfilled counts index it :
  capacityOk prev → capacityOk next →
  occupied next ≤ nfilled →
  (Z.of_nat (laneOccupied (laneOf index) next) ≤ counts !!! laneOf index)%Z →
  capacityOk (place prev next nfilled counts index it).
Proof.
  intros Hprev Hnext Hfill Hlane. unfold place.
  destruct (decide (slotAt next index = None)) as [Hemp|Hocc].
  - rewrite !(bool_decide_eq_true_2 (slotAt next index = None)) by done.
    simpl. case_bool_decide as H5; [done|].
    case_bool_decide as H2; [done|].
    destruct Hnext as (Hn & Hn0 & Hn1 & Hn2).
    assert (∀ P, occFrom P 0 (js_set next index (Some it))
                 = occFrom P 0 next + (if P index then 1 else 0)) as Hset.
    { intros P. pose proof (occFrom_js_set P next index (Some it)) as E.
      rewrite Hemp, ind_None, ind_Some in E. lia. }
    pose proof (laneOf_lt index) as Hlt.
    unfold capacityOk, occupied, laneOccupied in *.
    rewrite !Hset. simpl.
    destruct (laneOf index) as [|[|[|l]]] eqn:El; simpl; try lia.
  - rewrite !(bool_decide_eq_false_2 (slotAt next index = None)) by done.
    simpl.
    destruct (slotAt next index) as [y|] eqn:Ey; [|done].
    assert (∀ P, occFrom P 0 (js_set next index (Some it))
                 = occFrom P 0 next) as Hset.
    { intros P. pose proof (occFrom_js_set P next index (Some it)) as E.
      rewrite Ey, !ind_Some in E. lia. }
    unfold capacityOk, occupied, laneOccupied in *. by rewrite !Hset.
Qed.

Lemma assignFormation_capacity index item prev :
  capacityOk prev → capacityOk (assignFormation index item prev).
Proof.
  intros Hprev. unfold assignFormation.
  destruct item as [it|]; [|by apply capacityOk_vacate].
  destruct (findIndex (sameId it) prev) as [e|] eqn:Ef.
  - case_decide as He; [by apply capacityOk_vacate|].
    apply findIndex_sameId in Ef as (x & Hx & _).
    assert (slotAt prev e = Some x) as Hs by (unfold slotAt; by rewrite Hx).
    apply place_capacity; [done|by apply capacityOk_vacate|..].
    + rewrite filled_occupied. apply occFrom_vacate_le.
    + pose proof (laneOf_lt index) as Hlt. pose proof (laneOf_lt e) as Hle.
      rewrite list_lookup_total_alter, laneCounts_length.
      rewrite !laneCounts_laneOccupied by done.
      pose proof (occFrom_vacate
        (λ i, bool_decide (laneOf i = laneOf index)) prev e) as E.
      rewrite Hs, ind_Some in E. unfold laneOccupied.
      destruct (decide (laneOf e = laneOf index)) as [Heq|Hne].
      * rewrite decide_True by done.
        rewrite bool_decide_eq_true_2 in E by done. rewrite Heq. lia.
      * rewrite decide_False by (by intros [? _]).
        rewrite bool_decide_eq_false_2 in E by done. lia.
  - apply place_capacity; [done|done|by rewrite filled_occupied|].
    rewrite laneCounts_laneOccupied by apply laneOf_lt. lia.
Qed.

Lemma capacityOk_empty : capacityOk emptyFormation.
Proof. unfold capacityOk. vm_compute. lia. Qed.

Lemma runCalls_capacity calls s :
  capacityOk s → capacityOk (runCalls calls s).
Proof.
  unfold runCalls. revert s.
  induction calls as [|c calls IH]; intros s Hs; simpl; [done|].
  apply IH. by apply assignFormation_capacity.
Qed.

End formation_invariant.

(** ** Character formation: the specified properties *)

Section formation_properties.
Import Formation.

(** C1.  Starting from the all-empty six-position formation, after every
    prefix of every sequence of [assignFormation] calls at most 5 positions
    are occupied and each lane holds at most 2 occupied positions.  Lanes
    are the code's own classification [laneOf], which sends positions 0-1
    to the back lane, 2-3 to the mid lane and 4-5 to the front lane. *)
Theorem formation_capacity_invariant
    (calls : list (nat * option LibraryItem)) (n : nat) :
  let s := runCalls (take n calls) emptyFormation in
  laneOf <$> [0; 1; 2; 3; 4; 5] = [0; 0; 1; 1; 2; 2] ∧
  occupied s ≤ 5 ∧
  laneOccupied 0 s ≤ 2 ∧ laneOccupied 1 s ≤ 2 ∧ laneOccupied 2 s ≤ 2.
Proof.
  intros s. split; [done|].
  apply (runCalls_capacity (take n calls) emptyFormation capacityOk_empty).
Qed.

(** Calls that stay inside positions 0..5 keep the array at six entries. *)
Lemma assignFormation_length index item prev :
  index < length prev →
  length (assignFormation index item prev) = length prev.
Proof.
  intros Hi. unfold assignFormation, place.
  destruct item as [it|]; [|by apply js_set_length_lt].
  destruct (findIndex (sameId it) prev) as [e|] eqn:Ef.
  - apply findIndex_sameId in Ef as (x & Hx & _).
    apply lookup_lt_Some in Hx.
    repeat case_match; rewrite ?js_set_length_lt; try done;
      by rewrite js_set_length_lt.
  - repeat case_match; by rewrite ?js_set_length_lt.
Qed.

(** The part of relocation that the code gets right: below five occupied
    positions, moving [a] from [q] to an empty [p] of a lane with room
    vacates [q] and fills [p]. *)
Lemma relocate_below_capacity prev p q a :
  findIndex (sameId a) prev = Some q → q ≠ p →
  slotAt prev p = None →
  filled prev < 5 →
  (alter (λ c, c - 1) (laneOf q) (laneCounts prev) !!! laneOf p < 2)%Z →
  assignFormation p (Some a) prev = js_set (js_set prev q None) p (Some a).
Proof.
  intros Hf Hne Hp H5 H2. unfold assignFormation, place. rewrite Hf.
  rewrite decide_False by done.
  rewrite slotAt_js_set, decide_False by done. rewrite Hp.
  rewrite (bool_decide_eq_false_2 (5 ≤ _)) by lia.
  rewrite (bool_decide_eq_false_2 (2 ≤ _)%Z) by lia.
  by rewrite !andb_false_r.
Qed.

(** C2.  Evaluation of the code at the failing input.  [fullFormation] is
    reached from the empty formation by five assignments; relocating
    [charA] from position 0 into the empty position 5 is rejected: the
    state is returned unchanged, position 0 still holds [charA] and
    position 5 is still empty. *)
Theorem relocate_in_full_formation_rejected :
  runCalls [(0, Some charA); (1, Some charB); (2, Some charC);
            (3, Some charD); (4, Some charE)] emptyFormation
    = fullFormation ∧
  findIndex (sameId charA) fullFormation = Some 0 ∧
  filled fullFormation = 5 ∧
  assignFormation 5 (Some charA) fullFormation = fullFormation ∧
  slotAt (assignFormation 5 (Some charA) fullFormation) 0 = Some charA ∧
  slotAt (assignFormation 5 (Some charA) fullFormation) 5 = None.
Proof. vm_compute. done. Qed.

(** C3.  A rejected assignment returns the prior state itself: when a new
    asset (one whose id is nowhere in the formation) is assigned to an
    empty position while 5 positions are occupied, or while the target
    lane already holds 2, [assignFormation] yields [prev], equal at every
    position.  The updater is a total function, it has no failing path. *)
Theorem rejected_assignment_leaves_state prev index a :
  findIndex (sameId a) prev = None →
  slotAt prev index = None →
  5 ≤ occupied prev ∨ 2 ≤ laneOccupied (laneOf index) prev →
  assignFormation index (Some a) prev = prev ∧
  ∀ j, slotAt (assignFormation index (Some a) prev) j = slotAt prev j.
Proof.
  intros Hf Hemp Hcap.
  assert (assignFormation index (Some a) prev = prev) as E.
  { unfold assignFormation, place. rewrite Hf, Hemp.
    rewrite (bool_decide_eq_true_2 (None = None)) by done. simpl.
    rewrite filled_occupied.
    rewrite laneCounts_laneOccupied by apply laneOf_lt.
    destruct Hcap as [H5|H2].
    - by rewrite bool_decide_eq_true_2 by done.
    - case_bool_decide; [done|].
      by rewrite bool_decide_eq_true_2 by lia. }
  split; [done|]. intros j. by rewrite E.
Qed.

Lemma rejected_assignment_leaves_state_witness :
  (assignFormation 5 (Some charF) fullFormation = fullFormation ∧
   ∀ j, slotAt (assignFormation 5 (Some charF) fullFormation) j
        = slotAt fullFormation j) ∧
  (let lane2 := [None; None; None; None; Some charA; Some charB] in
   assignFormation 6 (Some charC) lane2 = lane2 ∧
   ∀ j, slotAt (assignFormation 6 (Some charC) lane2) j = slotAt lane2 j).
Proof.
  split.
  - apply (rejected_assignment_leaves_state fullFormation 5 charF).
    + reflexivity.
    + reflexivity.
    + left. vm_compute. lia.
  - apply (rejected_assignment_leaves_state
             [None; None; None; None; Some charA; Some charB] 6 charC).
    + reflexivity.
    + reflexivity.
    + right. vm_compute. lia.
Defined.

(** C4.  The toggle scenario for an arbitrary asset [A]: from the empty
    formation, assigning [A] to position 0 fills exactly position 0
    (back lane 1, total 1); assigning [A] to position 1 moves it there
    (position 0 empty, back lane 1, total 1); assigning [A] to position 1
    again empties it (total 0).  The lists show every other position
    unchanged at each step. *)
Theorem toggle_scenario (A : LibraryItem) :
  let s1 := assignFormation 0 (Some A) emptyFormation in
  let s2 := assignFormation 1 (Some A) s1 in
  let s3 := assignFormation 1 (Some A) s2 in
  s1 = [Some A; None; None; None; None; None] ∧
  laneOccupied 0 s1 = 1 ∧ occupied s1 = 1 ∧
  s2 = [None; Some A; None; None; None; None] ∧
  laneOccupied 0 s2 = 1 ∧ occupied s2 = 1 ∧
  s3 = [None; None; None; None; None; None] ∧
  occupied s3 = 0.
Proof.
  assert (assignFormation 0 (Some A) emptyFormation
          = [Some A; None; None; None; None; None]) as E1 by done.
  assert (assignFormation 1 (Some A) [Some A; None; None; None; None; None]
          = [None; Some A; None; None; None; None]) as E2.
  { unfold assignFormation, findIndex, sameId. simpl.
    rewrite decide_True by done. done. }
  assert (assignFormation 1 (Some A) [None; Some A; None; None; None; None]
          = [None; None; None; None; None; None]) as E3.
  { unfold assignFormation, findIndex, sameId. simpl.
    rewrite decide_True by done. done. }
  intros s1 s2 s3. subst s3 s2 s1. rewrite E1, E2, E3. done.
Qed.

End formation_properties.

(** ** Pet formation *)

Section pet_formation_properties.
Import PetFormation.

Lemma findIndex_sameOptId_None prev e :
  findIndex (sameOptId None) prev = Some e → prev !! e = Some None.
Proof.
  intros Hf. apply findIndex_Some in Hf as (s & Hs & Hp & _).
  unfold sameOptId in Hp. by destruct s; simplify_eq/=.
Qed.

(** Assigning a pet to the position it already occupies does not empty
    that position: the guard [existingIdx !== index] skips the vacating
    write and [next[index] = item] stores the pet again. *)
Lemma pet_own_position_not_toggled :
  slotAt [Some petP; None; None] 0 = Some petP ∧
  assignPetFormation 0 (Some petP) [Some petP; None; None]
    = [Some petP; None; None] ∧
  slotAt (assignPetFormation 0 (Some petP) [Some petP; None; None]) 0
    ≠ None.
Proof. vm_compute. done. Qed.

(** C5 (amended).  [assignPetFormation] has no capacity limit and changes
    at most the target position and the position found by [findIndex]:
    - passing [null] empties the target and nothing else;
    - a pet whose id is first found at another position [q] is removed
      from [q] and stored at the target, nothing else changes;
    - a pet whose id is first found at the target itself stays there (the
      target holds the passed pet, no toggle-off), nothing else changes;
    - a pet whose id is nowhere in the formation is stored at the target,
      whatever the occupancy, nothing else changes. *)
Theorem assignPetFormation_move_or_clear
    (prev : list (option LibraryItem)) (index : nat) :
  (∀ j, slotAt (assignPetFormation index None prev) j
        = if decide (j = index) then None else slotAt prev j) ∧
  (∀ a q, findIndex (sameOptId (Some a)) prev = Some q → q ≠ index →
     ∀ j, slotAt (assignPetFormation index (Some a) prev) j
          = if decide (j = index) then Some a
            else if decide (j = q) then None else slotAt prev j) ∧
  (∀ a, findIndex (sameOptId (Some a)) prev = Some index →
     ∀ j, slotAt (assignPetFormation index (Some a) prev) j
          = if decide (j = index) then Some a else slotAt prev j) ∧
  (∀ a, findIndex (sameOptId (Some a)) prev = None →
     ∀ j, slotAt (assignPetFormation index (Some a) prev) j
          = if decide (j = index) then Some a else slotAt prev j).
Proof.
  repeat split.
  - intros j. unfold assignPetFormation.
    destruct (findIndex (sameOptId None) prev) as [e|] eqn:Ef.
    + apply findIndex_sameOptId_None in Ef.
      rewrite (js_set_same prev e) by done.
      destruct (decide (e ≠ index)); apply slotAt_js_set.
    + apply slotAt_js_set.
  - intros a q Hf Hne j. unfold assignPetFormation. rewrite Hf.
    rewrite decide_True by done. by rewrite !slotAt_js_set.
  - intros a Hf j. unfold assignPetFormation. rewrite Hf.
    rewrite decide_False by (intros ?; done). apply slotAt_js_set.
  - intros a Hf j. unfold assignPetFormation. rewrite Hf.
    apply slotAt_js_set.
Qed.

Lemma assignPetFormation_move_or_clear_witness :
  let prev := [Some petP; None; Some petR] in
  (∀ j, slotAt (assignPetFormation 0 None prev) j
        = if decide (j = 0) then None else slotAt prev j) ∧
  (∀ j, slotAt (assignPetFormation 1 (Some petP) prev) j
        = if decide (j = 1) then Some petP
          else if decide (j = 0) then None else slotAt prev j) ∧
  (∀ j, slotAt (assignPetFormation 0 (Some petP) prev) j
        = if decide (j = 0) then Some petP else slotAt prev j) ∧
  (∀ j, slotAt (assignPetFormation 1 (Some charA) prev) j
        = if decide (j = 1) then Some charA else slotAt prev j).
Proof.
  intros prev.
  split; [|split; [|split]].
  - exact (proj1 (assignPetFormation_move_or_clear prev 0)).
  - exact (proj1 (proj2 (assignPetFormation_move_or_clear prev 1))
             petP 0 eq_refl ltac:(lia)).
  - exact (proj1 (proj2 (proj2 (assignPetFormation_move_or_clear prev 0)))
             petP eq_refl).
  - exact (proj2 (proj2 (proj2 (assignPetFormation_move_or_clear prev 1)))
             charA eq_refl).
Defined.

End pet_formation_properties.

(** ** Overlay alignment *)

Section overlay_alignment.
Open Scope Q_scope.

Lemma ofNat_S n : ofNat (S n) == ofNat n + 1.
Proof.
  unfold ofNat. rewrite Nat2Z.inj_succ. unfold Z.succ.
  by rewrite inject_Z_plus.
Qed.

Lemma flexStart_linear idx :
  Overlay.flexStart idx
  == ofNat idx * (Overlay.slotWidth Overlay.canvasLayout
                  + Overlay.gap Overlay.canvasLayout).
Proof.
  induction idx as [|k IH].
  - simpl. unfold ofNat. simpl. ring.
  - cbn [Overlay.flexStart]. rewrite IH, ofNat_S. ring.
Qed.

(** The five cells and four gaps fill the row exactly, so the flex
    container never shrinks a cell. *)
Lemma flex_row_fits :
  Overlay.flexStart 5 - Overlay.gap Overlay.canvasLayout
  == 1280 - 2 * Overlay.padding Overlay.canvasLayout.
Proof. vm_compute. reflexivity. Qed.

(** C6.  At canvas width 1280, for every cell index and every sub-region
    (character image, card image, each equipment cell) the overlay
    button's rectangle, obtained from [canvasLayout] by adding up the
    offsets of the boxes it is nested in, has the same x, y, width and
    height (as exact rationals) as the rectangle [drawCanvas] draws that
    sub-region in. *)
Theorem overlay_matches_canvas (idx : nat) (r : SubRegion) :
  rect_eq (Overlay.buttonRect idx r) (Layout.drawnRect 1280 idx r).
Proof.
  assert (Overlay.cellLeft idx == Layout.cellX 1280 idx) as Hx.
  { unfold Overlay.cellLeft, Layout.cellX. rewrite flexStart_linear.
    unfold Overlay.overlayOriginX, Overlay.framePadding. simpl.
    unfold Layout.slotWidth, Layout.padding. ring. }
  destruct r as [| |j]; unfold rect_eq; simpl.
  - unfold Layout.slotX. rewrite Hx.
    unfold Overlay.cellTop, Overlay.overlayOriginY, Overlay.framePadding,
      Layout.slotY_char, Layout.rowY, Layout.slotPadding, Layout.padding.
    simpl. repeat split; try reflexivity; ring.
  - unfold Layout.slotX. rewrite Hx.
    unfold Overlay.cellTop, Overlay.overlayOriginY, Overlay.framePadding,
      Layout.slotY_card, Layout.slotY_char, Layout.rowY, Layout.slotPadding,
      Layout.charImageHeight, Layout.slotWidth, Layout.padding.
    simpl. repeat split; try reflexivity; ring.
  - unfold Layout.equipX, Layout.slotX. rewrite Hx.
    unfold Overlay.cellTop, Overlay.overlayOriginY, Overlay.framePadding,
      Layout.slotY_equip, Layout.slotY_card, Layout.slotY_char, Layout.rowY,
      Layout.equipItemWidth, Layout.equipTotalWidth, Layout.equipGap,
      Layout.slotPadding, Layout.charImageHeight, Layout.cardImageHeight,
      Layout.slotWidth, Layout.padding, Layout.equipSize.
    simpl. repeat split; try reflexivity; ring.
Qed.

End overlay_alignment.

(** ** Note text layout *)

Section note_layout.
Import Note.
Variable measureText : jsstring → Q.
Variable canvasWidth : Q.

Local Abbreviation wrap := (wrapWords measureText canvasWidth).
Local Abbreviation groups := (greedyGroups measureText canvasWidth).
Local Abbreviation fitsW := (fits measureText canvasWidth).

Lemma tooWide_fits line :
  tooWide measureText canvasWidth line = negb (fitsW line).
Proof. done. Qed.

Lemma joinSp_snoc cur w :
  cur ≠ [] → joinSp (cur ++ [w]) = joinSp cur ++ [space] ++ w.
Proof.
  destruct cur as [|c cs]; [done|]. intros _. simpl.
  by rewrite foldl_app.
Qed.

Lemma joinSp_starts c cs : ∃ tail, joinSp (c :: cs) = c ++ tail.
Proof.
  simpl. revert c. induction cs as [|w cs IH]; intros c; simpl.
  - exists []. by rewrite app_nil_r.
  - destruct (IH (c ++ space :: w)) as [tail ->].
    exists (space :: w ++ tail). by rewrite <- app_assoc.
Qed.

Lemma joinSp_nonEmpty cur :
  cur ≠ [] → Forall (λ w, nonEmpty w = true) cur →
  nonEmpty (joinSp cur) = true.
Proof.
  destruct cur as [|c cs]; [done|]. intros _ Hall.
  apply Forall_cons in Hall as [Hc _].
  destruct (joinSp_starts c cs) as [tail ->]. by destruct c.
Qed.

Lemma wrapWords_greedy words : ∀ lines cur,
  length lines ≤ maxLines →
  Forall (λ w, nonEmpty w = true) words →
  Forall (λ w, nonEmpty w = true) cur →
  finishLine (wrap lines (joinSp cur) words)
  = take maxLines (lines ++ (joinSp <$> groups cur words)).
Proof.
  induction words as [|w rest IH]; intros lines cur Hlen Hws Hcur.
  - simpl. unfold finishLine. simpl.
    destruct cur as [|c cs].
    + simpl. rewrite app_nil_r. by rewrite take_ge.
    + rewrite joinSp_nonEmpty by done. simpl.
      case_bool_decide as Hlt.
      * rewrite take_ge; [done|]. rewrite length_app. simpl. lia.
      * rewrite take_app_le by lia. by rewrite take_ge by lia.
  - apply Forall_cons in Hws as [Hw Hrest].
    cbn [wrapWords]. case_bool_decide as Hfull.
    + unfold finishLine. simpl.
      rewrite (bool_decide_eq_false_2 (_ < _)) by lia.
      rewrite andb_false_r.
      rewrite take_app_le by lia. by rewrite take_ge by lia.
    + destruct cur as [|c cs].
      * simpl joinSp. cbn [nonEmpty]. rewrite andb_false_r.
        change w with (joinSp [w]) at 1.
        rewrite IH; [done|lia|done|by apply Forall_singleton].
      * rewrite (joinSp_nonEmpty (c :: cs)) by done.
        rewrite andb_true_r, tooWide_fits.
        rewrite <- joinSp_snoc by done.
        cbn [greedyGroups].
        destruct (fitsW (joinSp ((c :: cs) ++ [w]))) eqn:Ef; simpl negb; cbv iota.
        -- rewrite IH; [done|lia|done|].
           apply Forall_app. split; [done|by apply Forall_singleton].
        -- pose proof (IH (lines ++ [joinSp (c :: cs)]) [w]) as E.
           change (joinSp [w]) with w in E.
           rewrite E; [|rewrite length_app; simpl; lia|done
                       |by apply Forall_singleton].
           by rewrite fmap_cons, <- app_assoc.
Qed.

Lemma take_take_app {A} n (l k : list A) :
  take n (take n l ++ k) = take n (l ++ k).
Proof.
  destruct (decide (n ≤ length l)) as [Hle|Hgt].
  - rewrite !take_app_le; [|done|by rewrite length_take_le].
    rewrite take_take. by rewrite Nat.min_id.
  - by rewrite (take_ge l) by lia.
Qed.

Lemma wordsOf_nonEmpty paragraph :
  Forall (λ w, nonEmpty w = true) (wordsOf paragraph).
Proof.
  apply Forall_forall. intros w Hw. unfold wordsOf in Hw.
  by apply list_elem_of_filter in Hw as [? _].
Qed.

Lemma layoutParagraphs_wrapped paragraphs : ∀ lines,
  length lines ≤ maxLines →
  layoutParagraphs measureText canvasWidth lines paragraphs
  = take maxLines
      (lines ++ concat (paragraphLines measureText canvasWidth
                          <$> paragraphs)).
Proof.
  induction paragraphs as [|p rest IH]; intros lines Hlen.
  - simpl. rewrite app_nil_r. by rewrite take_ge.
  - cbn [layoutParagraphs]. case_bool_decide as Hfull.
    + rewrite take_app_le by lia. by rewrite take_ge by lia.
    + rewrite fmap_cons, concat_cons.
      assert (paragraphLines measureText canvasWidth p
              = if nonEmpty (trim p)
                then joinSp <$> groups [] (wordsOf p) else [[]]) as ->
        by done.
      destruct (nonEmpty (trim p)) eqn:Ep; simpl negb; cbv iota.
      * pose proof (wrapWords_greedy (wordsOf p) lines [] Hlen
                      (wordsOf_nonEmpty p) (Forall_nil_2 _)) as Hw.
        simpl joinSp in Hw. unfold finishLine in Hw.
        destruct (wrap lines [] (wordsOf p)) as [lines' cur'].
        simpl in Hw. rewrite Hw.
        rewrite IH by (rewrite length_take; lia).
        by rewrite take_take_app, <- app_assoc.
      * rewrite bool_decide_eq_true_2 by lia.
        rewrite IH by (rewrite length_app; simpl; lia).
        by rewrite <- app_assoc.
Qed.

Lemma noteLines_wrapped text :
  noteLines measureText canvasWidth text
  = wrappedLines measureText canvasWidth text.
Proof.
  unfold noteLines, wrappedLines.
  by rewrite layoutParagraphs_wrapped by (simpl; lia).
Qed.

Lemma groups_concat ws : ∀ cur, concat (groups cur ws) = cur ++ ws.
Proof.
  induction ws as [|w rest IH]; intros cur; simpl.
  - destruct cur; simpl; by rewrite ?app_nil_r.
  - destruct cur as [|c cs]; [by rewrite IH|].
    destruct (fitsW _); simpl; rewrite IH; [|done].
    simpl. by rewrite <- app_assoc.
Qed.

Lemma groups_head ws : ∀ c cs,
  ∃ g gs, groups (c :: cs) ws = g :: gs ∧ head g = Some c.
Proof.
  induction ws as [|w rest IH]; intros c cs; simpl; [by eauto|].
  destruct (fitsW _); [apply IH|by eauto].
Qed.

Lemma groups_shape ws : ∀ cur,
  length cur ≤ 1 ∨ fitsW (joinSp cur) = true →
  Forall (λ g, g ≠ [] ∧ (length g = 1 ∨ fitsW (joinSp g) = true))
    (groups cur ws).
Proof.
  induction ws as [|w rest IH]; intros cur Hcur; simpl.
  - destruct cur as [|c cs]; [done|]. apply Forall_singleton.
    split; [done|]. destruct Hcur as [Hl|Hf]; [left|by right].
    simpl in *. lia.
  - destruct cur as [|c cs]; [apply IH; simpl; lia|].
    destruct (fitsW (joinSp ((c :: cs) ++ [w]))) eqn:Ef.
    + apply IH. by right.
    + apply Forall_cons. split; [|apply IH; simpl; lia].
      split; [done|]. destruct Hcur as [Hl|Hf]; [left|by right].
      simpl in *. lia.
Qed.

Lemma groups_greedy ws : ∀ cur k g1 g2 w,
  groups cur ws !! k = Some g1 →
  groups cur ws !! S k = Some g2 →
  head g2 = Some w →
  fitsW (joinSp (g1 ++ [w])) = false.
Proof.
  induction ws as [|w0 rest IH]; intros cur k g1 g2 w; simpl.
  - destruct cur; simpl; [done|]. by destruct k.
  - destruct cur as [|c cs]; [apply IH|].
    destruct (fitsW (joinSp ((c :: cs) ++ [w0]))) eqn:Ef; [apply IH|].
    destruct k as [|k]; simpl; [|apply IH].
    intros [= <-] H2 Hh.
    destruct (groups_head rest w0 []) as (g & gs & Eg & Hg).
    rewrite Eg in H2. simpl in H2. injection H2 as ->.
    rewrite Hg in Hh. by injection Hh as <-.
Qed.

Lemma splitRuns_no_space s : ∀ inRun cur,
  Forall (λ c, isWhiteSpace c = false) cur →
  Forall (Forall (λ c, isWhiteSpace c = false)) (splitRuns inRun cur s).
Proof.
  induction s as [|c rest IH]; intros inRun cur Hcur; simpl.
  - by apply Forall_singleton.
  - destruct (isWhiteSpace c) eqn:Ec.
    + destruct inRun; [by apply IH|].
      apply Forall_cons. split; [done|]. by apply IH.
    + apply IH. apply Forall_app. split; [done|by apply Forall_singleton].
Qed.

Lemma wordsOf_no_space paragraph :
  Forall (λ w, w ≠ [] ∧ Forall (λ c, isWhiteSpace c = false) w)
    (wordsOf paragraph).
Proof.
  apply Forall_forall. intros w Hw. unfold wordsOf in Hw.
  apply list_elem_of_filter in Hw as [Hne Hin]. split.
  - by destruct w.
  - pose proof (splitRuns_no_space (trim paragraph) false [] (Forall_nil_2 _))
      as Hall.
    rewrite Forall_forall in Hall. by apply Hall.
Qed.

Lemma splitOn_nonempty sep s : ∀ cur, splitOn sep cur s ≠ [].
Proof.
  induction s as [|c rest IH]; intros cur; simpl; [done|].
  destruct (c =? sep)%N; [done|apply IH].
Qed.

Lemma splitOn_join s : ∀ cur,
  joinLines (splitOn newline cur s) = cur ++ s.
Proof.
  induction s as [|c rest IH]; intros cur; simpl.
  - by rewrite !app_nil_r.
  - destruct (c =? newline)%N eqn:Ec.
    + apply N.eqb_eq in Ec as ->.
      specialize (IH []). simpl in IH.
      pose proof (splitOn_nonempty newline rest []) as Hne.
      destruct (splitOn newline [] rest) as [|p ps] eqn:E; [done|].
      rewrite <- IH. done.
    + rewrite IH. by rewrite <- app_assoc.
Qed.

Lemma splitOn_no_newline s : ∀ cur,
  newline ∉ cur → Forall (λ p, newline ∉ p) (splitOn newline cur s).
Proof.
  induction s as [|c rest IH]; intros cur Hcur; simpl.
  - by apply Forall_singleton.
  - destruct (c =? newline)%N eqn:Ec.
    + apply Forall_cons. split; [done|]. apply IH. by intros ?%elem_of_nil.
    + apply IH. apply N.eqb_neq in Ec.
      rewrite elem_of_app, list_elem_of_singleton.
      intros [Hin|Heq]; [by apply Hcur|by apply Ec].
Qed.

Lemma lines_by_index (lines : list jsstring) n :
  (λ idx, default [] (lines !! idx)) <$> seq 0 (min (length lines) n)
  = take n lines.
Proof.
  apply list_eq. intros i. rewrite list_lookup_fmap.
  destruct (decide (i < min (length lines) n)) as [Hi|Hi].
  - rewrite lookup_seq_lt by done. simpl.
    rewrite lookup_take_lt by lia.
    destruct (lines !! i) as [x|] eqn:Hx; [done|].
    apply lookup_ge_None in Hx. lia.
  - rewrite lookup_seq_ge by lia. simpl. symmetry.
    apply lookup_ge_None_2. rewrite length_take. lia.
Qed.

Lemma trim_nonEmpty text : nonEmpty (trim text) = true → nonEmpty text = true.
Proof. by destruct text. Qed.

Lemma drawNote_texts text :
  td_text <$> drawNote measureText canvasWidth text
  = if nonEmpty (trim text)
    then wrappedLines measureText canvasWidth text else [].
Proof.
  unfold drawNote. destruct (nonEmpty (trim text)) eqn:Et.
  - rewrite (trim_nonEmpty text Et). simpl.
    rewrite <- list_fmap_compose. unfold compose. simpl.
    rewrite lines_by_index, noteLines_wrapped.
    unfold wrappedLines. rewrite take_take. by rewrite Nat.min_id.
  - by rewrite andb_false_r.
Qed.

Lemma drawNote_length text :
  length (drawNote measureText canvasWidth text) ≤ maxLines.
Proof.
  unfold drawNote. destruct (_ && _); simpl; [|lia].
  rewrite length_fmap, length_seq. lia.
Qed.

Lemma drawNote_rows text i j di dj :
  drawNote measureText canvasWidth text !! i = Some di →
  drawNote measureText canvasWidth text !! j = Some dj →
  i < j → (td_y di < td_y dj)%Q.
Proof.
  unfold drawNote. destruct (_ && _); simpl; [|done].
  rewrite !list_lookup_fmap. intros Hi Hj Hij.
  destruct (seq _ _ !! i) as [a|] eqn:Ea; [|done].
  destruct (seq _ _ !! j) as [b|] eqn:Eb; [|done].
  apply lookup_seq in Ea as [-> _]. apply lookup_seq in Eb as [-> _].
  simpl in *. injection Hi as <-. injection Hj as <-. simpl.
  apply Qplus_lt_r. unfold lineHeight, ofNat.
  apply Qmult_lt_compat_r; [done|].
  rewrite <- Zlt_Qlt. lia.
Qed.

(** C7 (amended).  Rendering [noteText]:
    - the paragraphs are the pieces of the text between newline
      characters;
    - the drawn lines are, in order, the greedy word wrap of each
      paragraph under the measured text width (a blank paragraph is one
      empty line), cut to [maxLines = floor(noteAreaHeight / lineHeight)];
      nothing is drawn for a text that is empty after trimming;
    - at most [maxLines] lines are drawn, each on a row of its own, lower
      than the rows before it, so no line is drawn twice;
    - words are non-empty and free of whitespace, the lines of a paragraph
      are its words in order, whole, joined by single spaces;
    - a line of two or more words is never wider than the note area; a
      line holding a single word is drawn whatever its width;
    - wrapping is greedy: the first word of the next line did not fit at
      the end of the line before it. *)
Theorem note_layout_wrapped (text : jsstring) :
  let drawn := drawNote measureText canvasWidth text in
  let W := Layout.noteAreaWidth canvasWidth in
  joinLines (paragraphsOf text) = text ∧
  Forall (λ p, newline ∉ p) (paragraphsOf text) ∧
  td_text <$> drawn
    = (if nonEmpty (trim text)
       then wrappedLines measureText canvasWidth text else []) ∧
  maxLines = Z.to_nat (Qfloor (Layout.noteAreaHeight / lineHeight)) ∧
  length drawn ≤ maxLines ∧
  (∀ i j di dj, drawn !! i = Some di → drawn !! j = Some dj → i < j →
     (td_y di < td_y dj)%Q) ∧
  (∀ paragraph,
     let gs := groups [] (wordsOf paragraph) in
     Forall (λ w, w ≠ [] ∧ Forall (λ c, isWhiteSpace c = false) w)
       (wordsOf paragraph) ∧
     concat gs = wordsOf paragraph ∧
     Forall (λ g, g ≠ [] ∧
                  (length g = 1 ∨ (measureText (joinSp g) <= W)%Q)) gs ∧
     ∀ k g1 g2 w,
       gs !! k = Some g1 → gs !! S k = Some g2 → head g2 = Some w →
       (W < measureText (joinSp (g1 ++ [w])))%Q).
Proof.
  intros drawn W. repeat split.
  - apply (splitOn_join text []).
  - apply splitOn_no_newline. by intros ?%elem_of_nil.
  - apply drawNote_texts.
  - apply drawNote_length.
  - apply drawNote_rows.
  - apply wordsOf_no_space.
  - apply groups_concat.
  - eapply Forall_impl; [apply groups_shape; simpl; lia|].
    intros g [Hne [Hl|Hf]]; (split; [done|]); [by left|right].
    by apply Qle_bool_iff.
  - intros k g1 g2 w H1 H2 Hh.
    pose proof (groups_greedy _ _ _ _ _ _ H1 H2 Hh) as Hno.
    apply Qnot_le_lt. intros Hle. apply Qle_bool_iff in Hle.
    unfold fits in Hno. subst W. by rewrite Hle in Hno.
Qed.

End note_layout.

Lemma note_layout_wrapped_witness :
  let text := Note.codeUnits "aaaaaaaaaaaaaaaaaaaaaaaaaaaaaa bbbbbbbbbbbbbbbbbbbbbbbbbbbbbb" in
  let drawn := Note.drawNote Note.fixedPitch 1280 text in
  Note.td_text <$> drawn
    = [Note.codeUnits "aaaaaaaaaaaaaaaaaaaaaaaaaaaaaa";
       Note.codeUnits "bbbbbbbbbbbbbbbbbbbbbbbbbbbbbb"] ∧
  (∀ d0 d1, drawn !! 0 = Some d0 → drawn !! 1 = Some d1 →
     (Note.td_y d0 < Note.td_y d1)%Q) ∧
  (Layout.noteAreaWidth 1280 < Note.fixedPitch text)%Q.
Proof.
  intros text drawn.
  destruct (note_layout_wrapped Note.fixedPitch 1280 text)
    as (_ & _ & Htexts & _ & _ & Hrows & Hpar).
  split; [|split].
  - exact Htexts.
  - intros d0 d1 H0 H1. apply (Hrows 0 1 d0 d1 H0 H1). lia.
  - destruct (Hpar text) as (_ & _ & _ & Hgreedy).
    apply (Hgreedy 0 (Note.wordsOf (Note.codeUnits "aaaaaaaaaaaaaaaaaaaaaaaaaaaaaa"))
             (Note.wordsOf (Note.codeUnits "bbbbbbbbbbbbbbbbbbbbbbbbbbbbbb"))
             (Note.codeUnits "bbbbbbbbbbbbbbbbbbbbbbbbbbbbbb"));
      reflexivity.
Defined.

(** A single long word is drawn as one line although it is wider than the
    note area: with 8px per code unit, sixty letters measure 480px
    against a note area of 470.4px at canvas width 1280. *)
Lemma long_word_exceeds_width :
  let word : list N := replicate 60 97%N in
  Note.td_text <$> Note.drawNote Note.fixedPitch 1280 word = [word] ∧
  (Layout.noteAreaWidth 1280 < Note.fixedPitch word)%Q.
Proof. vm_compute. done. Qed.

(** ** Placeholders for assets whose image is not resident *)

Section placeholders.
Import Compositor.
Open Scope Q_scope.
Variable imageCache : gmap string Image.
Variable canvasWidth : Q.

(** Character and card regions do draw the fallback rectangle and the
    centred name. *)
Lemma char_placeholder i slot c :
  char slot = Some c → readyImage imageCache (item_src c) = None →
  drawChar imageCache canvasWidth i slot
  = [ FillRect "rgba(0, 0, 0, 0.5)" (Layout.charRect canvasWidth i);
      centered "#ffffff" "600 14px" (item_name c)
        (rx (Layout.charRect canvasWidth i)
         + rw (Layout.charRect canvasWidth i) / 2)
        (ry (Layout.charRect canvasWidth i)
         + rh (Layout.charRect canvasWidth i) / 2) ].
Proof. intros Hc Hr. unfold drawChar. by rewrite Hc, Hr. Qed.

Lemma card_placeholder i slot c :
  card slot = Some c → readyImage imageCache (item_src c) = None →
  drawCard imageCache canvasWidth i slot
  = [ FillRect "rgba(0, 0, 0, 0.5)" (Layout.cardRect canvasWidth i);
      centered "#ffffff" "600 14px" (item_name c)
        (rx (Layout.cardRect canvasWidth i)
         + rw (Layout.cardRect canvasWidth i) / 2)
        (ry (Layout.cardRect canvasWidth i)
         + rh (Layout.cardRect canvasWidth i) / 2) ].
Proof. intros Hc Hr. unfold drawCard. by rewrite Hc, Hr. Qed.

(** Equipment cells and pet slots do not: with the image missing, an
    assigned cell gets the outline every cell gets and nothing else, and
    an assigned pet slot gets nothing. *)
Lemma equip_without_image i j kind slot e :
  equipOf (equips slot) kind = Some e →
  readyImage imageCache (item_src e) = None →
  drawEquipCell imageCache canvasWidth i j kind slot
  = equipCellFrame canvasWidth i j.
Proof.
  intros He Hr. unfold drawEquipCell. rewrite He, Hr. by rewrite app_nil_r.
Qed.

Lemma pet_without_image i p :
  readyImage imageCache (item_src p) = None →
  drawPetImage imageCache canvasWidth i (Some p) = [].
Proof. intros Hr. unfold drawPetImage. by rewrite Hr. Qed.

End placeholders.

(** C8.  Evaluation of the code at the failing input, with an empty image
    cache at canvas width 1280: the cell of the assigned weapon [sword]
    receives only the cell outline (no fallback fill, no name), and the
    slot of the assigned pet [petP] receives no drawing call at all,
    whereas the character region of an assigned [charA] does receive the
    fallback rectangle and its name. *)
Theorem unloaded_equipment_and_pet_lack_placeholder :
  Compositor.readyImage ∅ (item_src sword) = None ∧
  Compositor.drawEquipCell ∅ 1280 0 0 weapon armedSlot
    = [ Compositor.FillRoundRect "rgba(0, 0, 0, 0.3)"
          (Layout.equipRect 1280 0 0) 4;
        Compositor.StrokeRoundRect "rgba(255, 255, 255, 0.15)"
          (Layout.equipRect 1280 0 0) 4 ] ∧
  Compositor.readyImage ∅ (item_src petP) = None ∧
  Compositor.drawPetImage ∅ 1280 0 (Some petP) = [] ∧
  Compositor.drawChar ∅ 1280 0
      (mkCharSlot "slot-1" (Some charA) None Compositor.emptyEquips)
    = [ Compositor.FillRect "rgba(0, 0, 0, 0.5)" (Layout.charRect 1280 0);
        Compositor.centered "#ffffff" "600 14px" "A"
          (Layout.slotX 1280 0 + Compositor.innerWidth 1280 / 2)
          (Layout.slotY_char + Layout.charImageHeight 1280 / 2) ].
Proof. repeat split. Qed.

(** ** Canvas width is not validated *)

Section canvas_width.
Import Compositor.
Open Scope Q_scope.

Lemma drawSlots_five imageCache canvasWidth (charSlots : list CharSlot) :
  (5 ≤ length charSlots)%nat →
  drawSlots imageCache canvasWidth charSlots
  = Normal (concat (imap (drawSlot imageCache canvasWidth)
                      (take 5 charSlots))).
Proof.
  intros Hlen.
  destruct charSlots as [|s0 [|s1 [|s2 [|s3 [|s4 rest]]]]];
    simpl in Hlen; try lia.
  unfold drawSlots, drawSlotAt.
  generalize (drawSlot imageCache canvasWidth) as cell. intros cell. simpl.
  by rewrite !app_nil_r, <- !app_assoc.
Qed.

(** With the canvas and its context present and the usual five slots,
    [drawCanvas] at width 0 returns normally with a drawn frame. *)
Lemma zero_width_is_drawn :
  (0 <= 0)%Q ∧
  match drawCanvas true true 1 ∅ Note.fixedPitch initialCharSlots
          PetFormation.emptyPetFormation [] 0 None with
  | Normal (Some frame) =>
      styleWidth frame = 0 ∧ length (slotOps frame) = 95%nat
  | Normal None => False
  | Throw _ => False
  end.
Proof. vm_compute. split; [discriminate|done]. Qed.

(** C9 (amended).  [drawCanvas] does not validate the canvas width.  For
    a non-positive width (canvas, context and at least five slots
    present) it returns normally, without throwing, a frame computed by
    the usual formulas: the style width is the given width, the cells are
    those of the five slots, laid out with the slot width
    [(width - 96) / 5], which is negative. *)
Theorem nonpositive_width_is_not_rejected
    (devicePixelRatio : Q) (imageCache : gmap string Image)
    (measureText : Note.jsstring → Q) (charSlots : list CharSlot)
    (petFormationSlots : list (option LibraryItem))
    (noteText : Note.jsstring) (width : Q) (targetHeight : option Q) :
  width <= 0 → (5 ≤ length charSlots)%nat →
  ∃ frame,
    drawCanvas true true devicePixelRatio imageCache measureText charSlots
      petFormationSlots noteText width targetHeight = Normal (Some frame) ∧
    styleWidth frame = width ∧
    slotOps frame
      = concat (imap (drawSlot imageCache width) (take 5 charSlots)) ∧
    Layout.slotWidth width == (width - 96) / 5 ∧
    Layout.slotWidth width < 0.
Proof.
  intros Hw Hlen. unfold drawCanvas. simpl.
  rewrite drawSlots_five by done. simpl.
  eexists. split; [reflexivity|]. simpl. repeat split.
  - unfold Layout.slotWidth, Layout.padding. field.
  - unfold Layout.slotWidth, Layout.padding.
    apply Qlt_shift_div_r; [done|]. lra.
Qed.

Lemma nonpositive_width_is_not_rejected_witness :
  ∃ frame,
    drawCanvas true true 1 ∅ Note.fixedPitch initialCharSlots
      PetFormation.emptyPetFormation [] (-100) None = Normal (Some frame) ∧
    styleWidth frame = -100 ∧
    slotOps frame
      = concat (imap (drawSlot ∅ (-100)) (take 5 initialCharSlots)) ∧
    Layout.slotWidth (-100) == (-100 - 96) / 5 ∧
    Layout.slotWidth (-100) < 0.
Proof.
  apply (nonpositive_width_is_not_rejected 1 ∅ Note.fixedPitch
           initialCharSlots PetFormation.emptyPetFormation [] (-100) None).
  - discriminate.
  - vm_compute. lia.
Defined.

End canvas_width.

(** ** Image cache *)

Section asset_cache.
Import AssetCache.

Lemma cacheSound_initial : cacheSound initial.
Proof. intros src img H. simpl in H. by rewrite lookup_empty in H. Qed.

Lemma loadImage_cache src st : imageCache (loadImage src st).2 = imageCache st.
Proof.
  unfold loadImage, startLoad.
  destruct (imageCache st !! src) as [cached|]; [|done].
  by destruct (complete cached).
Qed.

Lemma cacheSound_step st ev : cacheSound st → cacheSound (step st ev).
Proof.
  intros Hs. destruct ev as [src|id|id]; simpl.
  - intros s img. rewrite loadImage_cache. apply Hs.
  - unfold onload.
    destruct (list_find (isElement id) (loading st)) as [[k img]|]; [|done].
    intros s i. simpl. rewrite lookup_insert.
    case_decide as Hk; [|apply Hs]. intros [= <-]. by subst.
  - apply Hs.
Qed.

Lemma cacheSound_run evs : ∀ st, cacheSound st → cacheSound (run evs st).
Proof.
  unfold run. induction evs as [|ev evs IH]; intros st Hs; simpl; [done|].
  by apply IH, cacheSound_step.
Qed.

(** Entries are never evicted. *)
Lemma cached_step st ev src :
  is_Some (imageCache st !! src) → is_Some (imageCache (step st ev) !! src).
Proof.
  intros Hc. destruct ev as [s|id|id]; simpl.
  - by rewrite loadImage_cache.
  - unfold onload.
    destruct (list_find (isElement id) (loading st)) as [[k img]|]; [|done].
    simpl. rewrite lookup_insert. by case_decide.
  - done.
Qed.

Lemma cached_run evs : ∀ st src,
  is_Some (imageCache st !! src) → is_Some (imageCache (run evs st) !! src).
Proof.
  unfold run. induction evs as [|ev evs IH]; intros st src Hc; simpl; [done|].
  by apply IH, cached_step.
Qed.

(** Two requests for one source, the second issued before the first load
    has settled: each creates its own element, and two loads for that
    source are in flight. *)
Lemma second_request_starts_second_load :
  let src := item_src charA in
  let r1 := loadImage src initial in
  let r2 := loadImage src r1.2 in
  r1.1 = Pending (mkImage 0 src false) ∧
  r2.1 = Pending (mkImage 1 src false) ∧
  r1.1 ≠ r2.1 ∧
  length (loadingFor src r2.2) = 2 ∧
  created r2.2 = 2.
Proof. vm_compute. repeat split; discriminate. Qed.

(** C10 (amended).  In every state reached from the empty cache:
    - a request for a source that is not in the cache creates a new
      element and starts a load of its own, whether or not loads for the
      same source are already in flight (no coalescing);
    - once the load of some element for a source has succeeded, every
      later request for that source, after any further events, is
      answered by an already resolved promise holding a complete cached
      element of that source, and neither creates an element nor changes
      the state. *)
Theorem loadImage_memoizes_after_success (evs : list Event) :
  let st := run evs initial in
  (∀ src, imageCache st !! src = None →
     loadImage src st
     = (Pending (mkImage (created st) src false),
        mkCache (imageCache st)
          (loading st ++ [mkImage (created st) src false])
          (S (created st)))) ∧
  (∀ id k img later,
     list_find (isElement id) (loading st) = Some (k, img) →
     let st' := run later (onload id st) in
     ∃ cached,
       loadImage (img_src img) st' = (Resolved cached, st') ∧
       img_src cached = img_src img ∧ complete cached = true).
Proof.
  intros st. split.
  - intros src Hnone. unfold loadImage, startLoad. by rewrite Hnone.
  - intros id k img later Hfind st'.
    assert (cacheSound st') as Hsound.
    { apply cacheSound_run. apply (cacheSound_step st (Loaded id)).
      apply cacheSound_run, cacheSound_initial. }
    assert (is_Some (imageCache st' !! img_src img)) as [cached Hc].
    { apply cached_run. unfold onload. rewrite Hfind. simpl.
      rewrite lookup_insert_eq. eauto. }
    destruct (Hsound _ _ Hc) as [Hcomplete Hsrc].
    exists cached. unfold loadImage. by rewrite Hc, Hcomplete.
Qed.

Lemma loadImage_memoizes_after_success_witness :
  let src := item_src charA in
  let st := run [Request src; Request src] initial in
  loadImage (item_src charB) st
    = (Pending (mkImage 2 (item_src charB) false),
       mkCache (imageCache st)
         (loading st ++ [mkImage 2 (item_src charB) false]) 3) ∧
  (let st' := run [Failed 1; Request (item_src charB)] (onload 0 st) in
   ∃ cached,
     loadImage src st' = (Resolved cached, st') ∧
     img_src cached = src ∧ complete cached = true).
Proof.
  intros src st. split.
  - apply (proj1 (loadImage_memoizes_after_success [Request src; Request src])
             (item_src charB)).
    reflexivity.
  - apply (proj2 (loadImage_memoizes_after_success [Request src; Request src])
             0 0 (mkImage 0 src false)
             [Failed 1; Request (item_src charB)]).
    reflexivity.
Defined.

End asset_cache.

(** * Further properties of the embedded code *)

(** ** Character formation *)

Section formation_further.
Import Formation.

Lemma uniqueIds_vacate s e : uniqueIds s → uniqueIds (js_set s e None).
Proof.
  intros Hu i j a b. rewrite !slotAt_js_set.
  repeat case_decide; try done. apply Hu.
Qed.

Lemma findIndex_sameId_slotAt a prev e :
  findIndex (sameId a) prev = Some e →
  ∃ x, slotAt prev e = Some x ∧ item_id x = item_id a.
Proof.
  intros Hf. apply findIndex_sameId in Hf as (x & Hx & Hid).
  exists x. split; [|done]. unfold slotAt. by rewrite Hx.
Qed.

Lemma findIndex_sameId_absent a prev j b :
  findIndex (sameId a) prev = None →
  slotAt prev j = Some b → item_id b ≠ item_id a.
Proof.
  intros Hf Hj Hid. apply findIndex_None in Hf.
  unfold slotAt in Hj. destruct (prev !! j) as [o|] eqn:Ej; [|done].
  simpl in Hj. subst o.
  rewrite Forall_forall in Hf. apply (Hf (Some b)).
  - by eapply list_elem_of_lookup_2.
  - unfold sameId. simpl. by rewrite Hid.
Qed.

Lemma uniqueIds_place prev e index a :
  uniqueIds prev →
  (∀ j b, slotAt prev j = Some b → item_id b = item_id a → j = e) →
  uniqueIds (js_set (js_set prev e None) index (Some a)).
Proof.
  intros Hu He i j x y. rewrite !slotAt_js_set.
  destruct (decide (i = index)) as [->|Hi], (decide (j = index)) as [->|Hj];
    try done.
  - intros [= <-]. case_decide; [done|]. intros Hy Hid.
    symmetry in Hid. by specialize (He _ _ Hy Hid).
  - case_decide; [done|]. intros Hx [= <-] Hid.
    by specialize (He _ _ Hx Hid).
  - repeat case_decide; try done. apply Hu.
Qed.

Lemma assignFormation_unique index item prev :
  uniqueIds prev → uniqueIds (assignFormation index item prev).
Proof.
  intros Hu. unfold assignFormation.
  destruct item as [a|]; [|by apply uniqueIds_vacate].
  destruct (findIndex (sameId a) prev) as [e|] eqn:Ef.
  - case_decide; [by apply uniqueIds_vacate|].
    unfold place. repeat case_match; try done.
    apply uniqueIds_place; [done|].
    intros j b Hj Hid.
    destruct (findIndex_sameId_slotAt _ _ _ Ef) as (x & Hx & Hxid).
    apply (Hu j e b x Hj Hx). congruence.
  - unfold place. repeat case_match; try done.
    intros i j x y. rewrite !slotAt_js_set.
    destruct (decide (i = index)) as [->|Hi],
      (decide (j = index)) as [->|Hj]; try done.
    + intros [= <-] Hy Hid. symmetry in Hid.
      by destruct (findIndex_sameId_absent _ _ _ _ Ef Hy).
    + intros Hx [= <-] Hid.
      by destruct (findIndex_sameId_absent _ _ _ _ Ef Hx).
    + apply Hu.
Qed.

Lemma uniqueIds_replicate n : uniqueIds (replicate n None).
Proof.
  intros i j a b Hi. unfold slotAt in Hi.
  destruct (replicate n None !! i) as [o|] eqn:E; [|done].
  apply lookup_replicate in E as [-> _]. done.
Qed.

Lemma runCalls_unique calls : ∀ s, uniqueIds s → uniqueIds (runCalls calls s).
Proof.
  unfold runCalls. induction calls as [|c calls IH]; intros s Hs; simpl;
    [done|].
  by apply IH, assignFormation_unique.
Qed.

(** X1.  Starting from the empty formation, after every sequence of
    [assignFormation] calls no asset id occupies two positions. *)
Theorem formation_ids_stay_unique (calls : list (nat * option LibraryItem)) :
  uniqueIds (runCalls calls emptyFormation).
Proof. apply runCalls_unique, uniqueIds_replicate. Qed.

(** X2.  A call changes at most two positions: the target and the first
    position holding the same id.  Every other position keeps its
    content, whether the call places, moves, clears or rejects. *)
Theorem assignFormation_frame index item prev j :
  j ≠ index → existingOf item prev ≠ Some j →
  slotAt (assignFormation index item prev) j = slotAt prev j.
Proof.
  intros Hj He. unfold assignFormation.
  destruct item as [a|]; simpl in He.
  - destruct (findIndex (sameId a) prev) as [e|] eqn:Ef.
    + assert (j ≠ e) as Hje by congruence.
      case_decide; [by rewrite slotAt_js_set, decide_False|].
      unfold place. repeat case_match; try done.
      by rewrite !slotAt_js_set, !decide_False.
    + unfold place. repeat case_match; try done.
      by rewrite slotAt_js_set, decide_False.
  - by rewrite slotAt_js_set, decide_False.
Qed.

Lemma assignFormation_frame_witness :
  slotAt (assignFormation 5 (Some charA) fullFormation) 2
  = slotAt fullFormation 2 ∧
  slotAt (assignFormation 1 (Some charC)
            [Some charA; Some charB; Some charC; None; None; None]) 0
  = Some charA.
Proof.
  split.
  - apply (assignFormation_frame 5 (Some charA) fullFormation 2);
      vm_compute; congruence.
  - apply (assignFormation_frame 1 (Some charC)
             [Some charA; Some charB; Some charC; None; None; None] 0);
      vm_compute; congruence.
Defined.

(** X3.  Outcome of assigning an asset [a] to a formation without
    duplicate ids: either the state is returned unchanged, or [a] now
    sits at the target and at no other position, or [a] (which was at the
    target) is gone from the formation altogether. *)
Theorem assignFormation_outcome index a prev :
  uniqueIds prev →
  let r := assignFormation index (Some a) prev in
  r = prev ∨
  (slotAt r index = Some a ∧
   ∀ j b, slotAt r j = Some b → item_id b = item_id a → j = index) ∨
  (findIndex (sameId a) prev = Some index ∧
   ∀ j b, slotAt r j = Some b → item_id b ≠ item_id a).
Proof.
  intros Hu r.
  pose proof (assignFormation_unique index (Some a) prev Hu) as Hr.
  fold r in Hr. unfold assignFormation in r.
  destruct (findIndex (sameId a) prev) as [e|] eqn:Ef.
  - destruct (decide (e = index)) as [->|Hne].
    + right. right. split; [done|]. intros j b. subst r.
      rewrite slotAt_js_set. case_decide; [done|]. intros Hb Hid.
      destruct (findIndex_sameId_slotAt _ _ _ Ef) as (x & Hx & Hxid).
      assert (j = index) by (apply (Hu j index b x Hb Hx); congruence).
      done.
    + unfold place in r. subst r. repeat case_match; auto.
      right. left.
      assert (slotAt (js_set (js_set prev e None) index (Some a)) index
              = Some a) as Hidx
        by (by rewrite slotAt_js_set, decide_True).
      split; [done|]. intros j b Hb Hid. by apply (Hr j index b a).
  - unfold place in r. subst r. repeat case_match; auto.
    right. left.
    assert (slotAt (js_set prev index (Some a)) index = Some a) as Hidx
      by (by rewrite slotAt_js_set, decide_True).
    split; [done|]. intros j b Hb Hid. by apply (Hr j index b a).
Qed.

Lemma assignFormation_outcome_witness :
  let prev := [Some charA; Some charB; None; None; None; None] in
  let r := assignFormation 3 (Some charA) prev in
  r = prev ∨
  (slotAt r 3 = Some charA ∧
   ∀ j b, slotAt r j = Some b → item_id b = item_id charA → j = 3) ∨
  (findIndex (sameId charA) prev = Some 3 ∧
   ∀ j b, slotAt r j = Some b → item_id b ≠ item_id charA).
Proof.
  apply (assignFormation_outcome 3 charA
           [Some charA; Some charB; None; None; None; None]).
  apply (runCalls_unique [(0, Some charA); (1, Some charB)] emptyFormation).
  apply uniqueIds_replicate.
Defined.

Lemma runCalls_length n calls : ∀ s,
  length s = n → Forall (λ c, c.1 < n) calls →
  length (runCalls calls s) = n.
Proof.
  unfold runCalls. induction calls as [|c calls IH]; intros s Hs Hall;
    simpl; [done|].
  apply Forall_cons in Hall as [Hc Hall].
  apply IH; [|done]. rewrite assignFormation_length; [done|lia].
Qed.

(** X4.  Calls whose positions all lie in 0..5 keep the formation at
    exactly six positions, whatever they assign. *)
Theorem formation_keeps_six_positions
    (calls : list (nat * option LibraryItem)) :
  Forall (λ c, c.1 < 6) calls →
  length (runCalls calls emptyFormation) = 6.
Proof. intros Hall. by apply runCalls_length. Qed.

Lemma formation_keeps_six_positions_witness :
  length (runCalls [(0, Some charA); (5, Some charA); (5, None)]
            emptyFormation) = 6.
Proof.
  apply (formation_keeps_six_positions
           [(0, Some charA); (5, Some charA); (5, None)]).
  repeat constructor.
Defined.

Lemma lane_has_room prev index :
  length prev = 6 → index < 6 → slotAt prev index = None →
  laneOccupied (laneOf index) prev ≤ 1.
Proof.
  intros Hlen Hidx Hemp.
  destruct prev as [|o0 [|o1 [|o2 [|o3 [|o4 [|o5 [|]]]]]]]; try done.
  destruct index as [|[|[|[|[|[|]]]]]]; try lia;
    unfold slotAt in Hemp; simpl in Hemp; subst;
    repeat match goal with o : option LibraryItem |- _ => destruct o end;
    vm_compute; lia.
Qed.

Lemma assign_to_empty_position index a prev :
  length prev = 6 → index < 6 → slotAt prev index = None →
  assignFormation index (Some a) prev
  = if decide (5 ≤ occupied prev) then prev
    else js_set
           (match findIndex (sameId a) prev with
            | Some e => js_set prev e None
            | None => prev
            end) index (Some a).
Proof.
  intros Hlen Hidx Hemp.
  pose proof (lane_has_room prev index Hlen Hidx Hemp) as Hroom.
  pose proof (laneOf_lt index) as Hlt.
  unfold assignFormation, place. rewrite filled_occupied.
  destruct (findIndex (sameId a) prev) as [e|] eqn:Ef.
  - destruct (findIndex_sameId_slotAt _ _ _ Ef) as (x & Hx & _).
    assert (e ≠ index) as Hne by (intros ->; congruence).
    rewrite decide_False by done.
    rewrite slotAt_js_set, decide_False by done. rewrite Hemp.
    rewrite !(bool_decide_eq_true_2 (None = None)) by done. simpl.
    destruct (decide (5 ≤ occupied prev)) as [H5|H5].
    + by rewrite bool_decide_eq_true_2.
    + rewrite bool_decide_eq_false_2 by done.
      rewrite bool_decide_eq_false_2; [done|].
      rewrite list_lookup_total_alter, laneCounts_length.
      rewrite !laneCounts_laneOccupied by (done || apply laneOf_lt).
      case_decide as Hd; [destruct Hd as [-> _]|]; lia.
  - rewrite Hemp.
    rewrite !(bool_decide_eq_true_2 (None = None)) by done. simpl.
    destruct (decide (5 ≤ occupied prev)) as [H5|H5].
    + by rewrite bool_decide_eq_true_2.
    + rewrite bool_decide_eq_false_2 by done.
      rewrite bool_decide_eq_false_2; [done|].
      rewrite laneCounts_laneOccupied by done. lia.
Qed.

(** X5.  In a six-position formation the lane guard never fires.
    Assigning an asset to an empty position is rejected exactly when five
    positions are occupied, counted before any move; otherwise the asset
    is written to the target after its previous position, if any, has
    been emptied. *)
Theorem six_positions_reject_only_when_full index a prev :
  length prev = 6 → index < 6 → slotAt prev index = None →
  assignFormation index (Some a) prev
  = if decide (5 ≤ occupied prev) then prev
    else js_set
           (match findIndex (sameId a) prev with
            | Some e => js_set prev e None
            | None => prev
            end) index (Some a).
Proof. apply assign_to_empty_position. Qed.

Lemma six_positions_reject_only_when_full_witness :
  assignFormation 3 (Some charA)
    [Some charA; Some charB; None; None; None; None]
  = [None; Some charB; None; Some charA; None; None] ∧
  assignFormation 5 (Some charF) fullFormation = fullFormation.
Proof.
  split.
  - rewrite (six_positions_reject_only_when_full 3 charA
               [Some charA; Some charB; None; None; None; None]);
      [reflexivity|reflexivity|lia|reflexivity].
  - rewrite (six_positions_reject_only_when_full 5 charF fullFormation);
      [reflexivity|reflexivity|lia|reflexivity].
Defined.

End formation_further.

(** ** Pet formation *)

Section pet_formation_further.
Import PetFormation.

Lemma findIndex_sameOptId_slotAt a prev e :
  findIndex (sameOptId (Some a)) prev = Some e →
  ∃ x, slotAt prev e = Some x ∧ item_id x = item_id a.
Proof.
  intros Hf. apply findIndex_Some in Hf as (o & Ho & Hp & _).
  unfold sameOptId in Hp. destruct o as [x|]; simplify_eq/=.
  exists x. split; [|done]. unfold slotAt. by rewrite Ho.
Qed.

Lemma findIndex_sameOptId_absent a prev j b :
  findIndex (sameOptId (Some a)) prev = None →
  slotAt prev j = Some b → item_id b ≠ item_id a.
Proof.
  intros Hf Hj Hid. apply findIndex_None in Hf.
  unfold slotAt in Hj. destruct (prev !! j) as [o|] eqn:Ej; [|done].
  simpl in Hj. subst o.
  rewrite Forall_forall in Hf. apply (Hf (Some b)).
  - by eapply list_elem_of_lookup_2.
  - unfold sameOptId. simpl. by rewrite Hid.
Qed.

Lemma assignPetFormation_unique index item prev :
  uniqueIds prev → uniqueIds (assignPetFormation index item prev).
Proof.
  intros Hu. unfold assignPetFormation.
  destruct item as [a|].
  - destruct (findIndex (sameOptId (Some a)) prev) as [e|] eqn:Ef.
    + destruct (findIndex_sameOptId_slotAt _ _ _ Ef) as (x & Hx & Hxid).
      assert (∀ j b, slotAt prev j = Some b → item_id b = item_id a → j = e)
        as Honly.
      { intros j b Hb Hid. apply (Hu j e b x Hb Hx). congruence. }
      case_decide as Hne.
      * by apply uniqueIds_place.
      * subst e.
        intros i j u v. rewrite !slotAt_js_set.
        destruct (decide (i = index)) as [->|Hi],
          (decide (j = index)) as [->|Hj]; try done.
        -- intros [= <-] Hv Hid. symmetry in Hid.
           by specialize (Honly _ _ Hv Hid).
        -- intros Hv [= <-] Hid. by specialize (Honly _ _ Hv Hid).
        -- apply Hu.
    + intros i j u v. rewrite !slotAt_js_set.
      destruct (decide (i = index)) as [->|Hi],
        (decide (j = index)) as [->|Hj]; try done.
      * intros [= <-] Hv Hid. symmetry in Hid.
        by destruct (findIndex_sameOptId_absent _ _ _ _ Ef Hv).
      * intros Hv [= <-] Hid.
        by destruct (findIndex_sameOptId_absent _ _ _ _ Ef Hv).
      * apply Hu.
  - destruct (findIndex (sameOptId None) prev) as [e|];
      [case_decide|]; repeat apply uniqueIds_vacate; done.
Qed.

Lemma assignPetFormation_length index item prev :
  index < length prev →
  length (assignPetFormation index item prev) = length prev.
Proof.
  intros Hi. unfold assignPetFormation.
  destruct (findIndex (sameOptId item) prev) as [e|] eqn:Ef.
  - apply findIndex_Some in Ef as (o & Ho & _).
    apply lookup_lt_Some in Ho.
    case_decide; rewrite !js_set_length_lt; try done.
    by rewrite js_set_length_lt.
  - by rewrite js_set_length_lt.
Qed.

(** X6.  Starting from the three empty pet positions, after every
    sequence of [assignPetFormation] calls on positions 0..2 the pet
    formation still has exactly three positions and no pet id occupies
    two of them. *)
Theorem pet_formation_stays_unique
    (calls : list (nat * option LibraryItem)) :
  Forall (λ c, c.1 < 3) calls →
  let s := runPetCalls calls emptyPetFormation in
  length s = 3 ∧ uniqueIds s.
Proof.
  intros Hall. unfold runPetCalls.
  assert (length emptyPetFormation = 3 ∧ uniqueIds emptyPetFormation) as H0
    by (split; [done|apply uniqueIds_replicate]).
  revert H0. generalize emptyPetFormation as s.
  induction calls as [|c calls IH]; intros s [Hl Hu]; simpl; [done|].
  apply Forall_cons in Hall as [Hc Hall]. apply IH; [done|]. split.
  - rewrite assignPetFormation_length; [done|lia].
  - by apply assignPetFormation_unique.
Qed.

Lemma pet_formation_stays_unique_witness :
  let s := runPetCalls [(0, Some petP); (2, Some petP); (1, Some petR)]
             emptyPetFormation in
  length s = 3 ∧ uniqueIds s.
Proof.
  apply (pet_formation_stays_unique
           [(0, Some petP); (2, Some petP); (1, Some petR)]).
  repeat constructor.
Defined.

End pet_formation_further.

(** ** Equipment kinds *)

Section equip_kinds.

Lemma prefix_spec p : ∀ s, String.prefix p s = true ↔ ∃ t, s = p +:+ t.
Proof.
  induction p as [|c p IH]; intros s.
  - destruct s; simpl; (split; [by eauto|done]).
  - destruct s as [|d s]; simpl.
    + split; [done|]. by intros [t Ht].
    + destruct (Ascii.ascii_dec c d) as [->|Hne].
      * rewrite IH. split.
        -- intros [t ->]. by exists t.
        -- intros [t Ht]. injection Ht as ->. by exists t.
      * split; [done|]. intros [t Ht]. by injection Ht.
Qed.

Lemma includes_spec seg : ∀ src, includes seg src = true ↔ contains seg src.
Proof.
  induction src as [|c rest IH]; cbn [includes].
  - rewrite prefix_spec. split.
    + intros [t Ht]. exists "", t. done.
    + intros (pre & post & H). destruct pre; [|done]. simpl in H. eauto.
  - rewrite orb_true_iff, prefix_spec, IH. split.
    + intros [[t Ht]|(pre & post & ->)].
      * exists "", t. done.
      * exists (String c pre), post. done.
    + intros (pre & post & H). destruct pre as [|d pre]; simpl in H.
      * left. eauto.
      * right. injection H as -> ->. by exists pre, post.
Qed.

(** X7.  [getEquipKind] is decided by the first of the four path
    segments, tested in the order weapon, armor, helmet, roon, that occurs
    anywhere in the source: the result is a kind exactly when its segment
    occurs and no earlier kind's segment does, and it is ["other"]
    exactly when none of the four occurs. *)
Theorem getEquipKind_first_segment src :
  (∀ k, getEquipKind src = Kind k ↔
        contains (segmentOf k) src ∧
        ∀ k', kindRank k' < kindRank k → ¬ contains (segmentOf k') src) ∧
  (getEquipKind src = other ↔ ∀ k, ¬ contains (segmentOf k) src).
Proof.
  unfold getEquipKind.
  destruct (includes "/weapon/" src) eqn:Ew;
    [|destruct (includes "/armor/" src) eqn:Ea;
      [|destruct (includes "/helmet/" src) eqn:Eh;
        [|destruct (includes "/roon/" src) eqn:Er]]];
    repeat match goal with
           | E : includes _ src = true |- _ => apply includes_spec in E
           | E : includes _ src = false |- _ =>
               apply not_true_iff_false in E; rewrite includes_spec in E
           end.
  all: split; [intros k; split|split].
  all: try (intros Hk; destruct k; try discriminate Hk;
            (split; [assumption|]);
            intros k'; destruct k'; simpl; intros; (lia || assumption)).
  all: try (intros [Hc Hn]; destruct k; simpl in Hc;
            first [ reflexivity | contradiction
                  | exfalso; apply (Hn weapon); [simpl; lia|assumption]
                  | exfalso; apply (Hn armor); [simpl; lia|assumption]
                  | exfalso; apply (Hn helmet); [simpl; lia|assumption] ]).
  all: try (intros H; first [ discriminate H | reflexivity ]).
  all: try (intros H k; destruct k; assumption).
  all: intros H; exfalso;
       first [ apply (H weapon); assumption | apply (H armor); assumption
             | apply (H helmet); assumption | apply (H roon); assumption ].
Qed.

Lemma getEquipKind_first_segment_witness :
  getEquipKind "/assets/equip/weapon/armor/x.png" = Kind weapon ∧
  getEquipKind "/assets/pet/p.png" = other.
Proof.
  split.
  - apply (proj1 (getEquipKind_first_segment
                    "/assets/equip/weapon/armor/x.png") weapon).
    split.
    + by exists "/assets/equip", "armor/x.png".
    + intros k'. destruct k'; simpl; lia.
  - apply (proj2 (getEquipKind_first_segment "/assets/pet/p.png")).
    intros k Hc. apply includes_spec in Hc. by destruct k.
Defined.

End equip_kinds.

(** ** Roster slots and the picker *)

Section roster_properties.
Import Roster.
Variable libraries : ItemType → list LibraryItem.
Variable searchHit : LibraryItem → bool.

Lemma elem_of_usedIds x (items : list (option LibraryItem)) :
  x ∈ usedIds items ↔ x ≠ "" ∧ ∃ a, Some a ∈ items ∧ item_id a = x.
Proof.
  unfold usedIds. rewrite elem_of_list_to_set, list_elem_of_filter.
  rewrite list_elem_of_omap. split.
  - intros [Hne (o & Ho & Hid)]. split; [done|].
    destruct o as [a|]; simplify_eq/=. eauto.
  - intros [Hne (a & Ha & Hid)]. split; [done|]. exists (Some a). by subst.
Qed.

Lemma used_in_field (get : CharSlot → option LibraryItem) slots j sj b :
  slots !! j = Some sj → get sj = Some b → item_id b ≠ "" →
  item_id b ∈ usedIds (get <$> slots).
Proof.
  intros Hj Hb Hne. apply elem_of_usedIds. split; [done|].
  exists b. split; [|done]. rewrite <- Hb.
  apply list_elem_of_fmap_2. by eapply list_elem_of_lookup_2.
Qed.

(** Replacing a slot by one with the same field keeps the field unique. *)
Lemma uniqueField_same get slots idx slot slot' :
  slots !! idx = Some slot → get slot' = get slot →
  uniqueField get slots → uniqueField get (<[idx := slot']> slots).
Proof.
  intros Hidx Hget Hu i j si sj a b Hi Hj Ha Hb Hid Hne.
  assert (idx < length slots) as Hlt by (by eapply lookup_lt_Some).
  rewrite list_lookup_insert in Hi, Hj.
  destruct (decide (idx = i ∧ idx < length slots)) as [[<- _]|Hni],
    (decide (idx = j ∧ idx < length slots)) as [[<- _]|Hnj];
    simplify_eq/=; try done.
  - rewrite Hget in Ha. by apply (Hu idx j slot sj a b).
  - rewrite Hget in Hb. by apply (Hu i idx si slot a b).
  - by apply (Hu i j si sj a b).
Qed.

(** Storing an item whose id is unused, or is the id already held by the
    target slot, keeps the field unique. *)
Lemma uniqueField_selected get slots idx slot slot' item :
  slots !! idx = Some slot → get slot' = Some item →
  item_id item ∉ usedIds (get <$> slots)
    ∨ Some (item_id item) = item_id <$> get slot →
  uniqueField get slots → uniqueField get (<[idx := slot']> slots).
Proof.
  intros Hidx Hget Havail Hu.
  assert (idx < length slots) as Hlt by (by eapply lookup_lt_Some).
  assert (∀ j sj b, slots !! j = Some sj → get sj = Some b →
            item_id b = item_id item → item_id b ≠ "" → j = idx) as Honly.
  { intros j sj b Hj Hb Hid Hne. destruct Havail as [Hfree|Hcur].
    - destruct Hfree. rewrite <- Hid. by eapply used_in_field.
    - destruct (get slot) as [c|] eqn:Hc; simplify_eq/=.
      apply (Hu j idx sj slot b c); congruence. }
  intros i j si sj a b Hi Hj Ha Hb Hid Hne.
  rewrite list_lookup_insert in Hi, Hj.
  destruct (decide (idx = i ∧ idx < length slots)) as [[<- _]|Hni],
    (decide (idx = j ∧ idx < length slots)) as [[<- _]|Hnj];
    simplify_eq/=; try done.
  - symmetry. apply (Honly j sj b); congruence.
  - apply (Honly i si a); congruence.
  - by apply (Hu i j si sj a b).
Qed.

Lemma uniquePets_selected pets idx item :
  item_id item ∉ usedIds pets
    ∨ Some (item_id item) = item_id <$> slotAt pets idx →
  uniquePets pets → uniquePets (js_set pets idx (Some item)).
Proof.
  intros Havail Hu.
  assert (∀ j b, slotAt pets j = Some b →
            item_id b = item_id item → item_id b ≠ "" → j = idx) as Honly.
  { intros j b Hj Hid Hne. destruct Havail as [Hfree|Hcur].
    - destruct Hfree. rewrite <- Hid. apply elem_of_usedIds.
      split; [done|]. exists b. split; [|done].
      unfold slotAt in Hj. destruct (pets !! j) as [o|] eqn:E; [|done].
      simpl in Hj. subst o. by eapply list_elem_of_lookup_2.
    - destruct (slotAt pets idx) as [c|] eqn:Hc; simplify_eq/=.
      apply (Hu j idx b c); congruence. }
  intros i j a b. rewrite !slotAt_js_set.
  destruct (decide (i = idx)) as [->|Hi], (decide (j = idx)) as [->|Hj];
    try done.
  - intros [= <-] Hb Hid Hne. symmetry. apply (Honly j b); congruence.
  - intros Ha [= <-] Hid Hne. apply (Honly i a); congruence.
  - apply Hu.
Qed.

(** X8.  The picker keeps the roster free of duplicates.  When the
    picker is open for a slot target of its own type and the roster holds
    no character, card or pet id twice, then choosing any entry of the
    list that [renderSlotPickerList] shows leaves the roster without
    duplicates, and closes the picker. *)
Theorem picker_selection_keeps_unique st t entries item st' :
  picker st = Some (target_type t) → slotTarget st = Some t →
  rosterUnique st →
  renderSlotPickerList libraries searchHit st = Normal (Some entries) →
  item ∈ entries →
  handleSelectToSlot item st = Some st' →
  rosterUnique st' ∧ picker st' = None ∧ slotTarget st' = None.
Proof.
  intros Hp Ht (Hchar & Hcard & Hpet) Hrender Hin Hsel.
  unfold renderSlotPickerList in Hrender. rewrite Hp, Ht in Hrender.
  unfold handleSelectToSlot in Hsel. rewrite Ht in Hsel.
  unfold currentIdOf, updateSlot in *.
  destruct (target_type t) eqn:Ety; simpl in *.
  - (* card *)
    destruct (charSlots st !! slotIndex t) as [slot|] eqn:Es;
      simplify_eq/=.
    apply list_elem_of_filter in Hin as [_ Hin].
    apply list_elem_of_filter in Hin as [Hkeep _].
    apply orb_true_iff in Hkeep.
    rewrite !bool_decide_eq_true in Hkeep.
    repeat split; simpl.
    + by eapply uniqueField_same.
    + by eapply uniqueField_selected.
    + done.
  - (* char *)
    destruct (charSlots st !! slotIndex t) as [slot|] eqn:Es;
      simplify_eq/=.
    apply list_elem_of_filter in Hin as [_ Hin].
    apply list_elem_of_filter in Hin as [Hkeep _].
    apply orb_true_iff in Hkeep.
    rewrite !bool_decide_eq_true in Hkeep.
    repeat split; simpl.
    + by eapply uniqueField_selected.
    + by eapply uniqueField_same.
    + done.
  - (* pet *)
    simplify_eq/=.
    apply list_elem_of_filter in Hin as [_ Hin].
    apply list_elem_of_filter in Hin as [Hkeep _].
    apply orb_true_iff in Hkeep.
    rewrite !bool_decide_eq_true in Hkeep.
    repeat split; simpl; try done.
    by apply uniquePets_selected.
  - (* equip *)
    destruct (equipKind t) as [kind|]; simplify_eq/=; [|done].
    destruct (charSlots st !! slotIndex t) as [slot|] eqn:Es;
      simplify_eq/=.
    repeat split; simpl; try done; by eapply uniqueField_same.
Qed.

Lemma rosterUnique_no_assets picker0 target0 slots pets :
  Forall (λ slot, char slot = None ∧ card slot = None) slots →
  Forall (λ pet, pet = None) pets →
  rosterUnique (mkPage picker0 target0 slots pets).
Proof.
  intros Hs Hp. rewrite Forall_forall in Hs. rewrite Forall_forall in Hp.
  repeat split; simpl.
  - intros i j si sj a b Hi _ Ha.
    apply list_elem_of_lookup_2, Hs in Hi as [Hc _]. congruence.
  - intros i j si sj a b Hi _ Ha.
    apply list_elem_of_lookup_2, Hs in Hi as [_ Hc]. congruence.
  - intros i j a b Hi. unfold slotAt in Hi.
    destruct (pets !! i) as [o|] eqn:E; [|done].
    apply list_elem_of_lookup_2, Hp in E. by subst.
Qed.

Lemma equipOf_setEquip kind kind' item e :
  equipOf (setEquip kind item e) kind'
  = if decide (kind' = kind) then item else equipOf e kind'.
Proof. by destruct kind, kind'. Qed.

Lemma equipsClassified_same slots idx slot slot' :
  slots !! idx = Some slot → equips slot' = equips slot →
  equipsClassified slots → equipsClassified (<[idx := slot']> slots).
Proof.
  intros Hidx Heq Hc i s0 kind e Hi He.
  rewrite list_lookup_insert in Hi.
  destruct (decide (idx = i ∧ idx < length slots)) as [[<- _]|Hn];
    simplify_eq/=.
  - rewrite Heq in He. by apply (Hc idx slot kind e).
  - by apply (Hc i s0 kind e).
Qed.

(** X9.  The picker keeps equipment in cells of its own kind.  If every
    equipped item is classified by [getEquipKind] as the kind of its cell
    or as ["other"], this is still so after choosing any entry of the
    list shown for the current target; for an equipment target the list
    holds only entries of the target's kind or of no kind. *)
Theorem picker_selection_keeps_kinds st p t entries item st' :
  picker st = Some p → slotTarget st = Some t →
  equipsClassified (charSlots st) →
  renderSlotPickerList libraries searchHit st = Normal (Some entries) →
  item ∈ entries →
  handleSelectToSlot item st = Some st' →
  equipsClassified (charSlots st') ∧
  (target_type t = TEquip → ∀ kind, equipKind t = Some kind →
     Forall (λ entry, getEquipKind (item_src entry) = Kind kind
                      ∨ getEquipKind (item_src entry) = other) entries).
Proof.
  intros Hp Ht Hc Hrender Hin Hsel.
  unfold renderSlotPickerList in Hrender. rewrite Hp, Ht in Hrender.
  unfold handleSelectToSlot in Hsel. rewrite Ht in Hsel.
  unfold currentIdOf, updateSlot in *.
  destruct (target_type t) eqn:Ety; simpl in *.
  - destruct (charSlots st !! slotIndex t) as [slot|] eqn:Es;
      simplify_eq/=.
    split; [by eapply equipsClassified_same|done].
  - destruct (charSlots st !! slotIndex t) as [slot|] eqn:Es;
      simplify_eq/=.
    split; [by eapply equipsClassified_same|done].
  - simplify_eq/=. done.
  - destruct (equipKind t) as [kind|] eqn:Ek; [|by simplify_eq/=].
    injection Hrender as Hentries.
    assert (Forall (λ entry, getEquipKind (item_src entry) = Kind kind
                     ∨ getEquipKind (item_src entry) = other) entries)
      as Hall.
    { rewrite <- Hentries. apply Forall_forall. intros entry He.
      apply list_elem_of_filter in He as [_ He].
      by apply list_elem_of_filter in He as [Hk _]. }
    destruct (charSlots st !! slotIndex t) as [slot|] eqn:Es;
      [|by simplify_eq/=].
    simpl in Hsel. injection Hsel as <-. simpl.
    split; [|by intros _ k [= <-]].
    intros i s0 kind' e Hi He. rewrite list_lookup_insert in Hi.
    destruct (decide (slotIndex t = i ∧ slotIndex t < length (charSlots st)))
      as [[<- _]|Hn].
    + injection Hi as <-. simpl in He.
      rewrite equipOf_setEquip in He. case_decide as Hk.
      * subst kind'. injection He as <-.
        rewrite Forall_forall in Hall. by apply Hall.
      * by apply (Hc (slotIndex t) slot kind' e).
    + by apply (Hc i s0 kind' e).
Qed.

End roster_properties.

Lemma picker_selection_keeps_unique_witness :
  let st := mkPage (Some TChar) (Some (mkTarget TChar 0 None))
              Compositor.initialCharSlots [None; None; None] in
  ∃ st', Roster.handleSelectToSlot charA st = Some st' ∧
         Roster.rosterUnique st' ∧ picker st' = None ∧ slotTarget st' = None.
Proof.
  intros st. eexists. split; [reflexivity|].
  apply (picker_selection_keeps_unique sampleLibraries (λ _, true) st
           (mkTarget TChar 0 None) [charA; charB] charA).
  - reflexivity.
  - reflexivity.
  - apply rosterUnique_no_assets; repeat constructor.
  - reflexivity.
  - apply list_elem_of_here.
  - reflexivity.
Defined.

Lemma picker_selection_keeps_kinds_witness :
  let st := mkPage (Some TEquip) (Some (mkTarget TEquip 0 (Some weapon)))
              Compositor.initialCharSlots [None; None; None] in
  ∃ st', Roster.handleSelectToSlot sword st = Some st' ∧
         Roster.equipsClassified (charSlots st') ∧
         Forall (λ entry, getEquipKind (item_src entry) = Kind weapon
                          ∨ getEquipKind (item_src entry) = other) [sword].
Proof.
  intros st. eexists. split; [reflexivity|].
  destruct (picker_selection_keeps_kinds sampleLibraries (λ _, true) st
              TEquip (mkTarget TEquip 0 (Some weapon)) [sword] sword
              (mkPage None None
                 (<[0 := Roster.withEquip weapon (Some sword)
                           (mkCharSlot "slot-1" None None
                              Compositor.emptyEquips)]>
                    Compositor.initialCharSlots) [None; None; None]))
    as [Hc Hall].
  - reflexivity.
  - reflexivity.
  - intros i slot kind e Hi He.
    destruct i as [|[|[|[|[|i]]]]]; simplify_eq/=; by destruct kind.
  - reflexivity.
  - apply list_elem_of_here.
  - reflexivity.
  - split; [exact Hc|]. by apply (Hall eq_refl weapon).
Defined.

Section roster_resets.
Import Roster.

Lemma uniqueField_cleared get slots idx slot slot' :
  slots !! idx = Some slot → get slot' = None →
  uniqueField get slots → uniqueField get (<[idx := slot']> slots).
Proof.
  intros Hidx Hget Hu i j si sj a b Hi Hj Ha Hb Hid Hne.
  rewrite list_lookup_insert in Hi, Hj.
  destruct (decide (idx = i ∧ idx < length slots)) as [[<- _]|Hni],
    (decide (idx = j ∧ idx < length slots)) as [[<- _]|Hnj];
    simplify_eq/=; try congruence.
  by apply (Hu i j si sj a b).
Qed.

Lemma uniqueField_appended get slots slot' :
  get slot' = None →
  uniqueField get slots → uniqueField get (slots ++ [slot']).
Proof.
  intros Hget Hu i j si sj a b Hi Hj Ha Hb Hid Hne.
  apply lookup_app_Some in Hi as [Hi|[_ Hi]];
    [|apply list_lookup_singleton_Some in Hi as [_ <-]; congruence].
  apply lookup_app_Some in Hj as [Hj|[_ Hj]];
    [|apply list_lookup_singleton_Some in Hj as [_ <-]; congruence].
  by apply (Hu i j si sj a b).
Qed.

Lemma pristine_slot_empty idx pristine :
  Compositor.initialCharSlots !! idx = Some pristine →
  char pristine = None ∧ card pristine = None
  ∧ equips pristine = Compositor.emptyEquips.
Proof.
  intros H. destruct idx as [|[|[|[|[|idx]]]]]; simplify_eq/=; done.
Qed.

(** X10.  Resetting never breaks the roster invariants: whenever
    [resetSlot] yields a roster, a roster that held no character, card or
    pet id twice and only equipment of the kind of its cell (or of no
    kind) still does. *)
Theorem resetSlot_keeps_invariants type idx kind st st' :
  resetSlot type idx kind st = Some st' →
  rosterUnique st → equipsClassified (charSlots st) →
  rosterUnique st' ∧ equipsClassified (charSlots st').
Proof.
  intros Hreset (Hchar & Hcard & Hpet) Hcl.
  unfold resetSlot, updateSlot in Hreset. destruct type.
  - (* card *)
    destruct (charSlots st !! idx) as [slot|] eqn:Es; simplify_eq/=.
    repeat split; simpl; try done.
    + by eapply uniqueField_same.
    + by eapply uniqueField_cleared.
    + by eapply equipsClassified_same.
  - (* char *)
    destruct (Compositor.initialCharSlots !! idx) as [pristine|] eqn:Ep;
      [|done].
    destruct (pristine_slot_empty _ _ Ep) as (Hc1 & Hc2 & He).
    simpl in Hreset.
    destruct (decide (idx < length (charSlots st))) as [Hlt|Hge].
    + destruct (lookup_lt_is_Some_2 _ _ Hlt) as [slot Es].
      injection Hreset as <-. repeat split; simpl; try done.
      * by eapply uniqueField_cleared.
      * by eapply uniqueField_cleared.
      * intros i s0 k e Hi Heq. rewrite list_lookup_insert in Hi.
        destruct (decide (idx = i ∧ idx < length (charSlots st)))
          as [[<- _]|Hn].
        -- injection Hi as <-. rewrite He in Heq. by destruct k.
        -- by apply (Hcl i s0 k e).
    + destruct (decide (idx = length (charSlots st))) as [Hidx|Hidx]; [|done].
      injection Hreset as <-. repeat split; simpl; try done.
      * by apply uniqueField_appended.
      * by apply uniqueField_appended.
      * intros i s0 k e Hi Heq.
        apply lookup_app_Some in Hi as [Hi|[_ Hi]].
        -- by apply (Hcl i s0 k e).
        -- apply list_lookup_singleton_Some in Hi as [_ <-].
           rewrite He in Heq. by destruct k.
  - (* pet *)
    injection Hreset as <-. repeat split; simpl; try done.
    intros i j a b. rewrite !slotAt_js_set.
    repeat case_decide; try done. apply Hpet.
  - (* equip *)
    destruct kind as [k|]; [|by simplify_eq/=].
    destruct (charSlots st !! idx) as [slot|] eqn:Es; simplify_eq/=.
    repeat split; simpl; try done.
    + by eapply uniqueField_same.
    + by eapply uniqueField_same.
    + intros i s0 kind' e Hi He. rewrite list_lookup_insert in Hi.
      destruct (decide (idx = i ∧ idx < length (charSlots st)))
        as [[<- _]|Hn].
      * injection Hi as <-. simpl in He.
        rewrite equipOf_setEquip in He. case_decide; [done|].
        by apply (Hcl idx slot kind' e).
      * by apply (Hcl i s0 kind' e).
Qed.

(** X11.  Resetting the five character cells brings any five-slot roster
    back to [initialCharSlots], whatever the cells held, and touches
    neither the pet slots nor the picker. *)
Theorem reset_all_restores_initial st :
  length (charSlots st) = 5 →
  resetAllChars st
  = Some (mkPage (picker st) (slotTarget st) Compositor.initialCharSlots
            (petSlots st)).
Proof.
  destruct st as [p t slots pets]. simpl. intros Hlen.
  destruct slots as [|s0 [|s1 [|s2 [|s3 [|s4 [|]]]]]]; try done.
Qed.

End roster_resets.

Lemma resetSlot_keeps_invariants_witness :
  ∃ st', Roster.resetSlot TChar 0 None initialPage = Some st' ∧
         Roster.rosterUnique st' ∧ Roster.equipsClassified (charSlots st').
Proof.
  eexists. split; [reflexivity|].
  apply (resetSlot_keeps_invariants TChar 0 None initialPage).
  - reflexivity.
  - apply rosterUnique_no_assets; repeat constructor.
  - intros i slot kind e Hi He.
    destruct i as [|[|[|[|[|i]]]]]; simplify_eq/=; by destruct kind.
Defined.

Lemma reset_all_restores_initial_witness :
  Roster.resetAllChars
    (mkPage None None
       [armedSlot; armedSlot; armedSlot; armedSlot; armedSlot] [])
  = Some (mkPage None None Compositor.initialCharSlots []).
Proof.
  apply (reset_all_restores_initial
           (mkPage None None
              [armedSlot; armedSlot; armedSlot; armedSlot; armedSlot] [])).
  reflexivity.
Defined.

(** ** Layout of the canvas *)

Section layout_further.
Open Scope Q_scope.
Variable canvasWidth : Q.

(** X12.  For every canvas width the drawn regions tile the width
    between the paddings: each character cell starts one slot width plus
    16 after the previous one and the fifth ends at
    [canvasWidth - padding]; the four equipment cells, 6 apart, end at
    the right edge of the cell interior; the three lane boxes, 4 apart,
    end 8 inside the pet section; and the note section ends at
    [canvasWidth - padding]. *)
Theorem regions_tile_the_width (i j : nat) :
  Layout.cellX canvasWidth (S i)
    == Layout.cellX canvasWidth i + Layout.slotWidth canvasWidth + 16 ∧
  Layout.cellX canvasWidth 4 + Layout.slotWidth canvasWidth
    == canvasWidth - Layout.padding ∧
  Layout.equipX canvasWidth i (S j)
    == Layout.equipX canvasWidth i j + Layout.equipItemWidth canvasWidth
       + Layout.equipGap ∧
  Layout.equipX canvasWidth i 3 + Layout.equipItemWidth canvasWidth
    == Layout.slotX canvasWidth i + Layout.equipTotalWidth canvasWidth ∧
  Layout.petX canvasWidth (S i)
    == Layout.petX canvasWidth i + Layout.petBoxWidth canvasWidth + 4 ∧
  Layout.petX canvasWidth 2 + Layout.petBoxWidth canvasWidth
    == Layout.padding + Layout.petSectionWidth canvasWidth - 8 ∧
  Layout.noteX canvasWidth + Layout.noteSectionWidth canvasWidth
    == canvasWidth - Layout.padding.
Proof.
  unfold Layout.cellX, Layout.equipX, Layout.slotX, Layout.cellX,
    Layout.petX, Layout.noteX, Layout.noteSectionWidth,
    Layout.equipItemWidth, Layout.equipTotalWidth, Layout.petBoxWidth,
    Layout.petSectionWidth, Layout.slotWidth, Layout.equipGap,
    Layout.slotPadding, Layout.padding.
  rewrite !ofNat_S.
  repeat split; unfold ofNat; simpl; field.
Qed.

(** X13.  Vertical stacking, for every canvas width: the equipment row's
    background reaches 12 below the bottom edge of its cell frame and ends
    exactly where the bottom section begins, the equipment cells end 6
    below the frame, and the computed canvas height is the bottom
    section's lower edge plus the padding. *)
Theorem rows_stack_vertically (i j : nat) :
  let frameBottom :=
    ry (Layout.cellRect canvasWidth i) + rh (Layout.cellRect canvasWidth i) in
  let rowBottom :=
    ry (Layout.equipRowRect canvasWidth i)
    + rh (Layout.equipRowRect canvasWidth i) in
  let cellBottom :=
    ry (Layout.equipRect canvasWidth i j)
    + rh (Layout.equipRect canvasWidth i j) in
  rowBottom == frameBottom + 12 ∧
  rowBottom == Layout.bottomSectionY canvasWidth ∧
  cellBottom == frameBottom + 6 ∧
  Layout.calculatedHeight canvasWidth
    == Layout.bottomSectionY canvasWidth + Layout.bottomSectionHeight
       + Layout.padding.
Proof.
  simpl.
  unfold Layout.bottomSectionY, Layout.calculatedHeight, Layout.slotY_equip,
    Layout.slotY_card, Layout.slotY_char, Layout.slotsHeight, Layout.rowY,
    Layout.equipSize, Layout.slotPadding, Layout.bottomSectionHeight,
    Layout.padding.
  repeat split; ring.
Qed.

End layout_further.

Section pet_overlay.
Open Scope Q_scope.

(** X14.  At canvas width 1280 the overlay button of every lane box has
    the x, width and height of the drawn box, and its top edge lies 12
    below the drawn box's top edge: the overlay separates its two rows by
    two 12px margins where the canvas leaves one 12px gap. *)
Theorem pet_button_below_drawn_box (idx : nat) :
  rx (PetOverlay.petButton idx) == rx (PetOverlay.drawnBox 1280 idx) ∧
  rw (PetOverlay.petButton idx) == rw (PetOverlay.drawnBox 1280 idx) ∧
  rh (PetOverlay.petButton idx) == rh (PetOverlay.drawnBox 1280 idx) ∧
  ry (PetOverlay.petButton idx) == ry (PetOverlay.drawnBox 1280 idx) + 12.
Proof.
  unfold PetOverlay.petButton, PetOverlay.drawnBox. simpl.
  unfold Layout.petX, Layout.petBoxWidth, Layout.petSectionWidth,
    Layout.petBoxY, Layout.petBoxHeight, Layout.bottomSectionY,
    Layout.slotsHeight, Layout.rowY, Layout.padding,
    PetOverlay.petRowLeft, PetOverlay.petRowTop, PetOverlay.slotRowHeight,
    PetOverlay.rowMarginBottom, PetOverlay.rowMarginTop,
    Overlay.cellTop, Overlay.overlayOriginX, Overlay.overlayOriginY,
    Overlay.framePadding, Layout.charImageHeight, Layout.cardImageHeight,
    Layout.slotWidth, Layout.equipSize, Layout.padding.
  simpl. repeat split; try reflexivity; ring.
Qed.

End pet_overlay.

(** ** Note text: splitting and joining *)

Section note_further.
Import Note.
Open Scope nat_scope.

Lemma filter_all {A} (P : A → Prop) `{!∀ x, Decision (P x)} (l : list A) :
  Forall P l → filter P l = l.
Proof.
  induction 1 as [|x l Hx Hl IH]; [done|].
  rewrite filter_cons_True by done. by rewrite IH.
Qed.

Lemma joinSp_flat w ws :
  joinSp (w :: ws) = w ++ concat ((λ w', space :: w') <$> ws).
Proof.
  simpl. revert w. induction ws as [|v ws IH]; intros w; simpl.
  - by rewrite app_nil_r.
  - rewrite IH. by rewrite <- app_assoc.
Qed.

Lemma splitRuns_absorb w : ∀ cur rest,
  Forall (λ c, isWhiteSpace c = false) w →
  splitRuns false cur (w ++ rest) = splitRuns false (cur ++ w) rest.
Proof.
  induction w as [|c w IH]; intros cur rest Hw; simpl.
  - by rewrite app_nil_r.
  - apply Forall_cons in Hw as [Hc Hw]. rewrite Hc.
    rewrite IH by done. by rewrite <- app_assoc.
Qed.

Lemma splitRuns_words ws : ∀ cur,
  Forall cleanWord ws →
  splitRuns false cur (concat ((λ w, space :: w) <$> ws)) = cur :: ws.
Proof.
  induction ws as [|w ws IH]; intros cur Hws; [done|].
  apply Forall_cons in Hws as [[Hne Hw] Hws].
  destruct w as [|c w]; [done|].
  apply Forall_cons in Hw as [Hc Hw].
  rewrite fmap_cons, concat_cons. simpl. rewrite Hc.
  rewrite splitRuns_absorb by done. simpl. by rewrite IH.
Qed.

Lemma trimStart_clean c s : isWhiteSpace c = false → trimStart (c :: s) = c :: s.
Proof. intros Hc. simpl. by rewrite Hc. Qed.

Lemma last_of_clean (l : jsstring) :
  l ≠ [] → Forall (λ c, isWhiteSpace c = false) l →
  ∃ d pre, l = pre ++ [d] ∧ isWhiteSpace d = false.
Proof.
  destruct l as [|d pre _] using rev_ind; intros Hne Hall; [done|].
  apply Forall_app in Hall as [_ Hd].
  rewrite Forall_singleton in Hd. by exists d, pre.
Qed.

Lemma joinSp_ends w ws :
  Forall cleanWord (w :: ws) →
  ∃ c body d, isWhiteSpace c = false ∧ isWhiteSpace d = false ∧
    (joinSp (w :: ws) = [c] ∨
     (joinSp (w :: ws) = c :: body ++ [d])).
Proof.
  intros Hall. rewrite joinSp_flat.
  apply Forall_cons in Hall as [[Hne Hw] Hws].
  destruct w as [|c w]; [done|].
  apply Forall_cons in Hw as [Hc Hw].
  assert (∃ d pre, (c :: w) ++ concat ((λ w', space :: w') <$> ws)
                   = pre ++ [d] ∧ isWhiteSpace d = false) as (d & pre & E & Hd).
  { clear Hne. revert c w Hc Hw.
    induction ws as [|v ws IH]; intros c w Hc Hw.
    - simpl. rewrite app_nil_r.
      apply (last_of_clean (c :: w)); [done|by apply Forall_cons].
    - apply Forall_cons in Hws as [[Hne Hv] Hws].
      destruct v as [|c' v]; [done|].
      apply Forall_cons in Hv as [Hc' Hv].
      destruct (IH Hws c' v Hc' Hv) as (d & pre & E & Hd).
      exists d, ((c :: w) ++ space :: pre). split; [|done].
      rewrite fmap_cons, concat_cons. simpl in *.
      rewrite E. by rewrite <- !app_assoc. }
  destruct pre as [|c0 pre]; simpl in E.
  - exists c, [], d. injection E as <- E. repeat split; try done.
    left. simpl. by rewrite E.
  - exists c, pre, d. injection E as <- E. repeat split; try done.
    right. simpl. by rewrite E.
Qed.

Lemma trim_joinSp ws : Forall cleanWord ws → trim (joinSp ws) = joinSp ws.
Proof.
  intros Hall. destruct ws as [|w ws]; [done|].
  destruct (joinSp_ends w ws Hall) as (c & body & d & Hc & Hd & [E|E]);
    rewrite E; unfold trim, trimEnd.
  - simpl. rewrite Hc. simpl. by rewrite Hc.
  - rewrite trimStart_clean by done.
    replace (c :: body ++ [d]) with ((c :: body) ++ [d]) by done.
    rewrite reverse_snoc, trimStart_clean by done.
    by rewrite reverse_cons, reverse_involutive.
Qed.

(** X15.  Splitting undoes joining: a list of words, each non-empty and
    free of whitespace, joined by single spaces and split again by
    [wordsOf] gives back the same words.  In particular normalising a
    paragraph twice changes nothing. *)
Theorem wordsOf_joinSp (ws : list jsstring) :
  (Forall cleanWord ws → wordsOf (joinSp ws) = ws) ∧
  ∀ paragraph, wordsOf (joinSp (wordsOf paragraph)) = wordsOf paragraph.
Proof.
  assert (∀ l, Forall cleanWord l → wordsOf (joinSp l) = l) as Hround.
  { intros l Hall. unfold wordsOf. rewrite trim_joinSp by done.
    destruct l as [|w l]; [done|].
    rewrite joinSp_flat.
    pose proof Hall as Hall'.
    apply Forall_cons in Hall' as [[Hne Hw] Hl].
    rewrite splitRuns_absorb by done. simpl.
    rewrite splitRuns_words by done.
    apply filter_all. eapply Forall_impl; [exact Hall|].
    intros v [Hv _]. by destruct v. }
  split; [apply Hround|].
  intros paragraph. apply Hround, wordsOf_no_space.
Qed.

Lemma wordsOf_joinSp_witness :
  wordsOf (joinSp [codeUnits "ab"; codeUnits "c"])
  = [codeUnits "ab"; codeUnits "c"].
Proof.
  apply (proj1 (wordsOf_joinSp [codeUnits "ab"; codeUnits "c"])).
  repeat constructor; done.
Defined.

Lemma splitOn_absorb p : ∀ cur rest,
  newline ∉ p →
  splitOn newline cur (p ++ rest) = splitOn newline (cur ++ p) rest.
Proof.
  induction p as [|c p IH]; intros cur rest Hp; simpl.
  - by rewrite app_nil_r.
  - apply not_elem_of_cons in Hp as [Hc Hp].
    destruct (c =? newline)%N eqn:E; [by apply N.eqb_eq in E|].
    rewrite IH by done. by rewrite <- app_assoc.
Qed.

Lemma splitOn_pieces ps : ∀ cur,
  Forall (λ p, newline ∉ p) ps →
  splitOn newline cur (concat ((λ q, newline :: q) <$> ps)) = cur :: ps.
Proof.
  induction ps as [|p ps IH]; intros cur Hps; [done|].
  apply Forall_cons in Hps as [Hp Hps].
  rewrite fmap_cons, concat_cons. simpl.
  rewrite splitOn_absorb by done. simpl. by rewrite IH.
Qed.

(** X16.  [split] undoes [join]: pieces that contain no newline, at least
    one of them, joined with newlines and split again by [paragraphsOf]
    are returned unchanged; the empty text is one empty paragraph. *)
Theorem paragraphsOf_joinLines (p : jsstring) (ps : list jsstring) :
  Forall (λ q, newline ∉ q) (p :: ps) →
  paragraphsOf (joinLines (p :: ps)) = p :: ps ∧ paragraphsOf [] = [[]].
Proof.
  intros Hall. apply Forall_cons in Hall as [Hp Hps].
  split; [|done]. unfold paragraphsOf, joinLines.
  rewrite splitOn_absorb by done. simpl. by apply splitOn_pieces.
Qed.

Lemma paragraphsOf_joinLines_witness :
  paragraphsOf (joinLines [codeUnits "ab"; []; codeUnits "c"])
  = [codeUnits "ab"; []; codeUnits "c"] ∧ paragraphsOf [] = [[]].
Proof.
  apply (paragraphsOf_joinLines (codeUnits "ab") [[]; codeUnits "c"]).
  repeat constructor; compute_done.
Defined.

End note_further.

(** ** Note text: where the lines are drawn *)

Section note_area.
Import Note.
Open Scope Q_scope.
Variable measureText : jsstring → Q.
Variable canvasWidth : Q.

(** X17.  Every drawn note line starts at the left edge of the note
    area and occupies a 20px row that lies inside the note area, between
    its top edge and its bottom edge. *)
Theorem note_lines_inside_area (text : jsstring) (d : TextDraw) :
  d ∈ drawNote measureText canvasWidth text →
  td_x d = Layout.noteX canvasWidth + Layout.notePadding ∧
  Layout.noteStartY canvasWidth <= td_y d ∧
  td_y d + lineHeight
    <= Layout.noteStartY canvasWidth + Layout.noteAreaHeight.
Proof.
  unfold drawNote. destruct (_ && _); [|by intros ?%elem_of_nil].
  intros Hd. apply list_elem_of_fmap in Hd as (idx & -> & Hidx).
  apply elem_of_seq in Hidx as [_ Hidx]. simpl in Hidx.
  assert (idx < 6)%nat as H6.
  { change maxLines with 6%nat in Hidx. lia. }
  assert (0 <= ofNat idx ∧ ofNat idx <= 5) as [H0 H5].
  { unfold ofNat. split.
    - change 0 with (inject_Z 0). rewrite <- Zle_Qle. lia.
    - change 5 with (inject_Z 5). rewrite <- Zle_Qle. lia. }
  simpl. split; [done|].
  unfold lineHeight, Layout.noteAreaHeight, Layout.bottomSectionHeight,
    Layout.notePadding.
  split; lra.
Qed.

End note_area.

Lemma note_lines_inside_area_witness :
  let d := Note.mkTextDraw [97%N] (Layout.noteX 1280 + Layout.notePadding)
             (Layout.noteStartY 1280 + ofNat 0 * Note.lineHeight) in
  (Layout.noteStartY 1280 <= Note.td_y d)%Q ∧
  (Note.td_y d + Note.lineHeight
     <= Layout.noteStartY 1280 + Layout.noteAreaHeight)%Q.
Proof.
  intros d.
  destruct (note_lines_inside_area Note.fixedPitch 1280 [97%N] d)
    as (_ & Hlo & Hhi).
  - apply list_elem_of_here.
  - split; [exact Hlo|exact Hhi].
Defined.

(** ** Compositor: outcomes and loaded images *)

Section compositor_further.
Import Compositor.
Open Scope Q_scope.



(** X19.  The name of an assigned character, and of an assigned card, is
    drawn whether or not its image is ready, in white 600-weight 14px
    text centred on the vertical middle axis of its region. *)
Theorem assigned_names_are_drawn (imageCache : gmap string Image)
    (canvasWidth : Q) (i : nat) (slot : CharSlot) :
  (∀ c, char slot = Some c →
     ∃ y, centered "#ffffff" "600 14px" (item_name c)
            (rx (Layout.charRect canvasWidth i)
             + rw (Layout.charRect canvasWidth i) / 2) y
          ∈ drawChar imageCache canvasWidth i slot) ∧
  (∀ c, card slot = Some c →
     ∃ y, centered "#ffffff" "600 14px" (item_name c)
            (rx (Layout.cardRect canvasWidth i)
             + rw (Layout.cardRect canvasWidth i) / 2) y
          ∈ drawCard imageCache canvasWidth i slot).
Proof.
  split; intros c Hc.
  - unfold drawChar. rewrite Hc.
    destruct (readyImage imageCache (item_src c)); eexists;
      [do 2 apply list_elem_of_further|apply list_elem_of_further];
      apply list_elem_of_here.
  - unfold drawCard. rewrite Hc.
    destruct (readyImage imageCache (item_src c)); eexists;
      [do 2 apply list_elem_of_further|apply list_elem_of_further];
      apply list_elem_of_here.
Qed.

Lemma assigned_names_are_drawn_witness :
  ∃ y, centered "#ffffff" "600 14px" "A"
         (rx (Layout.charRect 1280 0) + rw (Layout.charRect 1280 0) / 2) y
       ∈ drawChar ∅ 1280 0 (mkCharSlot "slot-1" (Some charA) None emptyEquips).
Proof.
  apply (proj1 (assigned_names_are_drawn ∅ 1280 0
                  (mkCharSlot "slot-1" (Some charA) None emptyEquips))
           charA).
  reflexivity.
Defined.

End compositor_further.

(** ** Image cache and drawing together *)

Section cache_further.
Import AssetCache Compositor Loader.

Lemma ready_after_load st id k img later :
  cacheSound st →
  list_find (isElement id) (loading st) = Some (k, img) →
  ∃ cached,
    readyImage (imageCache (run later (onload id st))) (img_src img)
      = Some cached ∧
    img_src cached = img_src img ∧ complete cached = true.
Proof.
  intros Hsound Hfind.
  assert (cacheSound (run later (onload id st))) as Hs'.
  { apply cacheSound_run. by apply (cacheSound_step st (Loaded id)). }
  assert (is_Some (imageCache (run later (onload id st)) !! img_src img))
    as [cached Hc].
  { apply cached_run. unfold onload. rewrite Hfind. simpl.
    rewrite lookup_insert_eq. eauto. }
  destruct (Hs' _ _ Hc) as [Hcomplete Hsrc].
  exists cached. unfold readyImage. by rewrite Hc, Hcomplete.
Qed.

(** X20.  Once the load of an element has succeeded, then after any
    further requests, loads and failures every region that shows an
    asset with that source draws the cached image in its rectangle:
    character image, card image, equipment cell and pet slot alike. *)
Theorem loaded_assets_are_drawn (evs later : list Event) (id k : nat)
    (img : Image) (canvasWidth : Q) (a : LibraryItem) :
  list_find (isElement id) (loading (run evs initial)) = Some (k, img) →
  item_src a = img_src img →
  let cache := imageCache (run later (onload id (run evs initial))) in
  ∃ cached, complete cached = true ∧ img_src cached = item_src a ∧
    (∀ i slot, char slot = Some a →
       DrawImage cached (Layout.charRect canvasWidth i)
       ∈ drawChar cache canvasWidth i slot) ∧
    (∀ i slot, card slot = Some a →
       DrawImage cached (Layout.cardRect canvasWidth i)
       ∈ drawCard cache canvasWidth i slot) ∧
    (∀ i j kind slot, equipOf (equips slot) kind = Some a →
       DrawImage cached (Layout.equipRect canvasWidth i j)
       ∈ drawEquipCell cache canvasWidth i j kind slot) ∧
    (∀ i, DrawImage cached (Layout.petImageRect canvasWidth i)
          ∈ drawPetImage cache canvasWidth i (Some a)).
Proof.
  intros Hfind Hsrc cache.
  destruct (ready_after_load (run evs initial) id k img later)
    as (cached & Hready & Hcsrc & Hcomplete);
    [apply cacheSound_run, cacheSound_initial|done|].
  fold cache in Hready. rewrite <- Hsrc in Hready.
  exists cached. split; [done|]. split; [congruence|].
  repeat split.
  - intros i slot Hc. unfold drawChar. rewrite Hc, Hready.
    apply list_elem_of_here.
  - intros i slot Hc. unfold drawCard. rewrite Hc, Hready.
    apply list_elem_of_here.
  - intros i j kind slot He. unfold drawEquipCell. rewrite He, Hready.
    apply elem_of_app. right. apply list_elem_of_here.
  - intros i. unfold drawPetImage. rewrite Hready.
    apply list_elem_of_further, list_elem_of_here.
Qed.

Lemma loaded_assets_are_drawn_witness :
  let src := item_src charA in
  let cache :=
    imageCache (run [Failed 1] (onload 0 (run [Request src; Request src]
                                            initial))) in
  ∃ cached, complete cached = true ∧ img_src cached = src ∧
    DrawImage cached (Layout.charRect 1280 0)
    ∈ drawChar cache 1280 0 (mkCharSlot "slot-1" (Some charA) None emptyEquips).
Proof.
  intros src cache.
  destruct (loaded_assets_are_drawn [Request src; Request src] [Failed 1]
              0%nat 0%nat (mkImage 0 src false) 1280 charA)
    as (cached & Hc & Hs & Hchar & _).
  - reflexivity.
  - reflexivity.
  - exists cached. split; [exact Hc|]. split; [exact Hs|].
    apply (Hchar 0%nat (mkCharSlot "slot-1" (Some charA) None emptyEquips)).
    reflexivity.
Defined.

Lemma run_app evs1 evs2 st : run (evs1 ++ evs2) st = run evs2 (run evs1 st).
Proof. unfold run. apply foldl_app. Qed.

Lemma no_success_from st evs :
  imageCache st = ∅ →
  Forall (λ ev, ¬ isLoaded ev) evs →
  imageCache (run evs st) = ∅ ∧
  created (run evs st) = (created st + length (filter isRequest evs))%nat.
Proof.
  revert st. induction evs as [|ev evs IH]; intros st Hempty Hall.
  - simpl. split; [done|lia].
  - apply Forall_cons in Hall as [Hev Hall].
    change (run (ev :: evs) st) with (run evs (step st ev)).
    destruct ev as [src|id|id]; simpl in Hev; [| by destruct Hev |].
    + assert (step st (Request src) = (startLoad src st).2) as Hstep.
      { unfold step, loadImage. by rewrite Hempty, lookup_empty. }
      rewrite Hstep. destruct (IH (startLoad src st).2) as [Hc Hn];
        [done|done|].
      split; [done|]. rewrite Hn. rewrite filter_cons_True by done.
      simpl. lia.
    + destruct (IH (step st (Failed id))) as [Hc Hn]; [done|done|].
      split; [done|]. rewrite Hn. rewrite filter_cons_False by (by intros ?).
      simpl. lia.
Qed.

(** X21.  Nothing is remembered about loads that did not succeed: in a
    history without any successful load the cache is still empty and
    every request, also one for a source that failed or is still loading,
    has created an element of its own, so the number of elements created
    equals the number of requests. *)
Theorem every_request_loads_until_success (evs : list Event) :
  Forall (λ ev, ¬ isLoaded ev) evs →
  imageCache (run evs initial) = ∅ ∧
  created (run evs initial) = length (filter isRequest evs).
Proof. intros Hall. by apply (no_success_from initial). Qed.

Lemma every_request_loads_until_success_witness :
  let src := item_src charA in
  imageCache (run [Request src; Failed 0; Request src] initial) = ∅ ∧
  created (run [Request src; Failed 0; Request src] initial)
  = length (filter isRequest [Request src; Failed 0; Request src]).
Proof.
  intros src.
  apply (every_request_loads_until_success
           [Request src; Failed 0; Request src]).
  repeat constructor; by intros ?.
Defined.

End cache_further.

(** ** Batch loading *)

Section loader_properties.
Import AssetCache Compositor Loader.

Lemma setAdd_NoDup s x : NoDup s → NoDup (setAdd s x).
Proof.
  intros Hs. unfold setAdd. case_decide; [done|].
  apply NoDup_app. split_and!; [done| |apply NoDup_singleton].
  intros y Hy ->%list_elem_of_singleton. done.
Qed.

Lemma elem_of_setAdd s x y : y ∈ setAdd s x ↔ y ∈ s ∨ y = x.
Proof.
  unfold setAdd. case_decide.
  - split; [by left|]. by intros [?| ->].
  - rewrite elem_of_app, list_elem_of_singleton. done.
Qed.

Lemma addAsset_NoDup s asset : NoDup s → NoDup (addAsset s asset).
Proof. destruct asset; simpl; [apply setAdd_NoDup|done]. Qed.

Lemma foldl_addAsset_NoDup assets s :
  NoDup s → NoDup (foldl addAsset s assets).
Proof.
  revert s. induction assets as [|a assets IH]; intros s Hs; simpl; [done|].
  by apply IH, addAsset_NoDup.
Qed.

Lemma elem_of_foldl_addAsset assets s y :
  y ∈ foldl addAsset s assets
  ↔ y ∈ s ∨ ∃ a, Some a ∈ assets ∧ item_src a = y.
Proof.
  revert s. induction assets as [|a assets IH]; intros s; simpl.
  - split; [by left|]. intros [?|(a & Ha & _)]; [done|].
    by apply elem_of_nil in Ha.
  - rewrite IH. destruct a as [a|]; simpl.
    + rewrite elem_of_setAdd. split.
      * intros [[?| ->]|(b & Hb & <-)].
        -- by left.
        -- right. exists a. split; [apply list_elem_of_here|done].
        -- right. exists b. split; [by apply list_elem_of_further|done].
      * intros [?|(b & Hb & <-)]; [by left; left|].
        apply elem_of_cons in Hb as [[= ->]|Hb]; [by left; right|].
        right. by exists b.
    + split.
      * intros [?|(b & Hb & <-)]; [by left|].
        right. exists b. split; [by apply list_elem_of_further|done].
      * intros [?|(b & Hb & <-)]; [by left|].
        apply elem_of_cons in Hb as [[=]|Hb]. right. by exists b.
Qed.

Lemma addSlot_assets s slot : addSlot s slot = foldl addAsset s (assetsOf slot).
Proof. done. Qed.

Lemma foldl_addSlot charSlots s :
  foldl addSlot s charSlots = foldl addAsset s (charSlots ≫= assetsOf).
Proof.
  revert s. induction charSlots as [|slot rest IH]; intros s; [done|].
  change ((slot :: rest) ≫= assetsOf) with (assetsOf slot ++ (rest ≫= assetsOf)).
  rewrite foldl_app. simpl. by rewrite IH, addSlot_assets.
Qed.

Lemma imageSrcs_shown charSlots pets :
  imageSrcs charSlots pets
  = foldl setAdd (foldl addAsset [] (shownAssets charSlots pets)) laneIcons.
Proof.
  unfold imageSrcs, shownAssets. by rewrite foldl_app, foldl_addSlot.
Qed.

Lemma imageSrcs_NoDup charSlots pets : NoDup (imageSrcs charSlots pets).
Proof.
  unfold imageSrcs. do 3 apply setAdd_NoDup.
  apply foldl_addAsset_NoDup. rewrite foldl_addSlot.
  apply foldl_addAsset_NoDup, NoDup_nil_2.
Qed.

(** X22.  The set of sources a frame asks for has no duplicates and
    holds exactly the sources of the assets the roster shows (characters,
    cards, the four equipment pieces of each slot, the pets) together with
    the three lane icons. *)
Theorem imageSrcs_are_the_shown_sources (charSlots : list CharSlot)
    (pets : list (option LibraryItem)) :
  NoDup (imageSrcs charSlots pets) ∧
  ∀ src, src ∈ imageSrcs charSlots pets
         ↔ (∃ a, Some a ∈ shownAssets charSlots pets ∧ item_src a = src)
           ∨ src ∈ laneIcons.
Proof.
  split; [apply imageSrcs_NoDup|]. intros src.
  rewrite imageSrcs_shown. simpl.
  rewrite !elem_of_setAdd, elem_of_foldl_addAsset.
  unfold laneIcons. simpl. rewrite !elem_of_cons, elem_of_nil.
  tauto.
Qed.

Lemma loadImage_ready src st :
  loadImage src st
  = match readyImage (imageCache st) src with
    | Some cached => (Resolved cached, st)
    | None => startLoad src st
    end.
Proof. unfold loadImage, readyImage. by repeat case_match. Qed.

(** What a caller of the batch gets for one source, given the elements
    the batch created. *)
Local Abbreviation answers cache new :=
  (λ (src : string) (r : LoadResult),
     match readyImage cache src with
     | Some cached => r = Resolved cached
     | None => ∃ img, r = Pending img ∧ img_src img = src ∧ img ∈ new
     end).

Lemma loadAll_from srcs rs st :
  ∃ rs' new,
    foldl loadNext (rs, st) srcs
    = (rs ++ rs',
       mkCache (imageCache st) (loading st ++ new)
         (created st + length new)) ∧
    img_src <$> new = notReady (imageCache st) srcs ∧
    Forall (λ img, complete img = false ∧ created st ≤ img_id img) new ∧
    Forall2 (answers (imageCache st) new) srcs rs'.
Proof.
  revert rs st. induction srcs as [|src srcs IH]; intros rs st.
  - exists [], []. simpl. rewrite !app_nil_r, Nat.add_0_r.
    destruct st. by repeat split.
  - cbn [foldl]. unfold loadNext at 2. cbn [fst snd].
    rewrite loadImage_ready. unfold notReady.
    destruct (readyImage (imageCache st) src) as [cached|] eqn:Hready.
    + destruct (IH (rs ++ [Resolved cached]) st)
        as (rs' & new & Hrun & Hnew & Hfresh & Hans).
      exists (Resolved cached :: rs'), new. cbn [fst snd]. rewrite Hrun.
      rewrite <- app_assoc. split; [done|].
      rewrite filter_cons_False by (by rewrite Hready).
      split; [done|]. split; [done|].
      constructor; [by rewrite Hready|done].
    + set (img := mkImage (created st) src false).
      destruct (IH (rs ++ [Pending img])
                  (mkCache (imageCache st) (loading st ++ [img])
                     (S (created st))))
        as (rs' & new & Hrun & Hnew & Hfresh & Hans).
      exists (Pending img :: rs'), (img :: new). simpl in Hrun, Hnew.
      unfold startLoad. fold img. cbn [fst snd]. rewrite Hrun.
      rewrite <- !app_assoc. simpl.
      rewrite Nat.add_succ_r. split; [done|].
      rewrite filter_cons_True by done.
      split; [f_equal; exact Hnew|]. split.
      { constructor; [done|]. eapply Forall_impl; [exact Hfresh|].
        simpl. intros i [? ?]. split; [done|lia]. }
      simpl in Hans. constructor.
      * rewrite Hready. exists img. split_and!; [done|done|].
        apply list_elem_of_here.
      * eapply Forall2_impl; [exact Hans|]. intros s r Hr. simpl in Hr.
        destruct (readyImage (imageCache st) s); [done|].
        destruct Hr as (i & -> & <- & Hi). exists i.
        split_and!; [done|done|]. by apply list_elem_of_further.
Qed.

(** X23.  One batch leaves the cache as it is and creates exactly one
    element for every source of the frame that is not ready, none for a
    source that is ready and never two for one source; a caller gets the
    cached image for a ready source and a pending load of a new element
    with that source for every other one. *)
Theorem batch_loads_each_missing_source_once (charSlots : list CharSlot)
    (pets : list (option LibraryItem)) (st : CacheState) :
  let srcs := imageSrcs charSlots pets in
  let res := loadAllImages charSlots pets st in
  imageCache res.2 = imageCache st ∧
  ∃ new,
    loading res.2 = loading st ++ new ∧
    created res.2 = (created st + length new)%nat ∧
    img_src <$> new = notReady (imageCache st) srcs ∧
    NoDup (img_src <$> new) ∧
    Forall (λ img, complete img = false) new ∧
    Forall2 (λ src r,
               match readyImage (imageCache st) src with
               | Some cached => r = Resolved cached
               | None =>
                   ∃ img, r = Pending img ∧ img_src img = src ∧ img ∈ new
               end) srcs res.1.
Proof.
  intros srcs res. subst res. unfold loadAllImages, loadAll. fold srcs.
  destruct (loadAll_from srcs [] st) as (rs' & new & Hrun & Hnew & Hf & Hans).
  rewrite Hrun. simpl. split; [done|]. exists new.
  split_and!; try done.
  - rewrite Hnew. apply NoDup_filter, imageSrcs_NoDup.
  - eapply Forall_impl; [exact Hf|]. by intros img [? _].
Qed.

End loader_properties.

(** ** A batch whose loads succeed *)

Section batch_outcome.
Import AssetCache Compositor Loader.

Lemma idsFresh_initial : idsFresh initial.
Proof. split; [apply NoDup_nil_2|apply Forall_nil_2]. Qed.

Lemma idsFresh_drop id st :
  idsFresh st →
  idsFresh (mkCache (imageCache st) (dropElement id (loading st))
              (created st)).
Proof.
  intros [Hnd Hlt]. split; simpl.
  - apply (sublist_NoDup _ (img_id <$> loading st)); [exact Hnd|].
    apply fmap_sublist, sublist_filter.
  - rewrite Forall_forall in Hlt. apply Forall_forall.
    intros img [_ Himg]%list_elem_of_filter. by apply Hlt.
Qed.

Lemma idsFresh_step st ev : idsFresh st → idsFresh (step st ev).
Proof.
  intros Hf. destruct ev as [src|id|id]; simpl.
  - rewrite loadImage_ready.
    destruct (readyImage (imageCache st) src); [done|].
    destruct Hf as [Hnd Hlt]. split; simpl.
    + rewrite fmap_app. apply NoDup_app. split_and!; [done| |].
      * intros x Hx ->%list_elem_of_singleton.
        apply list_elem_of_fmap in Hx as (img & Hid & Himg).
        rewrite Forall_forall in Hlt. specialize (Hlt _ Himg).
        simpl in Hid. lia.
      * apply NoDup_singleton.
    + apply Forall_app. split.
      * eapply Forall_impl; [exact Hlt|]. intros img ?. simpl in *. lia.
      * apply Forall_singleton. simpl. lia.
  - unfold onload.
    destruct (list_find (isElement id) (loading st)) as [[k img]|]; [|done].
    by apply (idsFresh_drop id) in Hf.
  - by apply idsFresh_drop.
Qed.

Lemma idsFresh_run evs : ∀ st, idsFresh st → idsFresh (run evs st).
Proof.
  unfold run. induction evs as [|ev evs IH]; intros st Hs; simpl; [done|].
  by apply IH, idsFresh_step.
Qed.

Lemma find_in_flight st img :
  idsFresh st → img ∈ loading st →
  ∃ k, list_find (isElement (img_id img)) (loading st) = Some (k, img).
Proof.
  intros [Hnd _] Hin. apply list_elem_of_lookup in Hin as [k Hk].
  exists k. apply list_find_Some. split_and!; [done|done|].
  intros j y Hj Hlt Hy. unfold isElement in Hy.
  assert (j = k); [|lia].
  eapply NoDup_lookup; [exact Hnd| |].
  - rewrite list_lookup_fmap, Hj. simpl. by rewrite Hy.
  - by rewrite list_lookup_fmap, Hk.
Qed.

Lemma in_flight_step st ev img :
  img ∈ loading st →
  ev ≠ Loaded (img_id img) → ev ≠ Failed (img_id img) →
  img ∈ loading (step st ev).
Proof.
  intros Hin Hl Hf.
  assert (∀ id, id ≠ img_id img → img ∈ dropElement id (loading st)) as Hdrop.
  { intros id Hid. apply list_elem_of_filter. split; [|done].
    unfold isElement. congruence. }
  destruct ev as [src|id|id]; simpl.
  - rewrite loadImage_ready.
    destruct (readyImage (imageCache st) src); [done|]. simpl.
    apply elem_of_app. by left.
  - unfold onload.
    destruct (list_find (isElement id) (loading st)) as [[k i]|]; [|done].
    simpl. apply Hdrop. congruence.
  - apply Hdrop. congruence.
Qed.

Lemma ready_of_cached st src :
  cacheSound st → is_Some (imageCache st !! src) →
  is_Some (readyImage (imageCache st) src).
Proof.
  intros Hs [img Himg]. unfold readyImage. rewrite Himg.
  destruct (Hs _ _ Himg) as [-> _]. eauto.
Qed.

Lemma cached_of_ready cache src :
  is_Some (readyImage cache src) → is_Some (cache !! src).
Proof.
  unfold readyImage. destruct (cache !! src); [eauto|]. by intros [? ?].
Qed.

Lemma in_flight_succeeds later : ∀ st img,
  idsFresh st → img ∈ loading st →
  Loaded (img_id img) ∈ later → Failed (img_id img) ∉ later →
  is_Some (imageCache (run later st) !! img_src img).
Proof.
  induction later as [|ev later IH]; intros st img Hf Hin Hl Hnf.
  - by apply elem_of_nil in Hl.
  - change (run (ev :: later) st) with (run later (step st ev)).
    destruct (decide (ev = Loaded (img_id img))) as [->|Hne].
    + apply cached_run. simpl. unfold onload.
      destruct (find_in_flight st img Hf Hin) as [k ->]. simpl.
      rewrite lookup_insert_eq. eauto.
    + apply IH.
      * by apply idsFresh_step.
      * apply in_flight_step; [done|done|].
        intros ->. apply Hnf, list_elem_of_here.
      * by apply elem_of_cons in Hl as [?|?].
      * intros ?. by apply Hnf, list_elem_of_further.
Qed.

Lemma loadAll_as_requests srcs : ∀ rs st,
  (foldl loadNext (rs, st) srcs).2 = run (Request <$> srcs) st.
Proof.
  induction srcs as [|src srcs IH]; intros rs st; [done|].
  cbn [foldl fmap list_fmap]. unfold loadNext at 2. cbn [fst snd].
  by rewrite IH.
Qed.

(** X24.  When every load that a batch started succeeds, every image the
    frame needs is ready afterwards: the sources of all shown assets and
    the three lane icons, whatever else is requested, loaded or failing
    in the meantime, and whatever happened before the batch. *)
Theorem batch_makes_frame_ready (evs later : list Event)
    (charSlots : list CharSlot) (pets : list (option LibraryItem)) :
  let st := run evs initial in
  let batch := (loadAllImages charSlots pets st).2 in
  (∀ id, created st ≤ id < created batch →
         Loaded id ∈ later ∧ Failed id ∉ later) →
  ∀ src, src ∈ imageSrcs charSlots pets →
    is_Some (readyImage (imageCache (run later batch)) src).
Proof.
  intros st batch Hall src Hsrc.
  assert (cacheSound st) as Hsound
    by apply cacheSound_run, cacheSound_initial.
  assert (idsFresh st) as Hfresh by apply idsFresh_run, idsFresh_initial.
  subst batch. unfold loadAllImages, loadAll in *.
  destruct (loadAll_from (imageSrcs charSlots pets) [] st)
    as (rs & new & Hrun & Hnew & Hincomplete & Hans).
  rewrite Hrun in *. simpl in Hall.
  set (batch := mkCache (imageCache st) (loading st ++ new)
                  (created st + length new)) in *.
  assert (cacheSound batch) as Hsound' by exact Hsound.
  assert (idsFresh batch) as Hfresh'.
  { assert (batch = run (Request <$> imageSrcs charSlots pets) st) as ->;
      [|by apply idsFresh_run].
    subst batch. by rewrite <- (loadAll_as_requests _ []), Hrun. }
  apply ready_of_cached; [by apply cacheSound_run|].
  destruct (readyImage (imageCache st) src) as [cached|] eqn:Hready.
  - apply cached_run. apply cached_of_ready. simpl. rewrite Hready. eauto.
  - assert (src ∈ img_src <$> new) as Hin.
    { rewrite Hnew. apply list_elem_of_filter. by split. }
    apply list_elem_of_fmap in Hin as (img & -> & Himg).
    assert (img ∈ loading batch) as Hflight.
    { simpl. apply elem_of_app. by right. }
    assert (created st ≤ img_id img < created st + length new) as Hid.
    { destruct Hfresh' as [_ Hlt]. rewrite Forall_forall in Hlt, Hincomplete.
      specialize (Hlt _ Hflight). simpl in Hlt. split; [|done].
      by destruct (Hincomplete _ Himg). }
    destruct (Hall _ Hid) as [Hl Hf].
    by apply in_flight_succeeds.
Qed.

End batch_outcome.

Lemma batch_makes_frame_ready_witness :
  let batch := (Loader.loadAllImages [armedSlot] [Some petP]
                  AssetCache.initial).2 in
  let later := AssetCache.Loaded <$> seq 0 6 in
  is_Some (Compositor.readyImage
             (AssetCache.imageCache (AssetCache.run later batch))
             (item_src petP)).
Proof.
  intros batch later.
  apply (batch_makes_frame_ready [] later [armedSlot] [Some petP]).
  - intros id Hid. vm_compute in Hid.
    assert (id = 0 ∨ id = 1 ∨ id = 2 ∨ id = 3 ∨ id = 4 ∨ id = 5)%nat
      as Hcases by lia.
    destruct Hcases as [->|[->|[->|[->|[->| ->]]]]];
      (split; [compute_done|compute_done]).
  - compute_done.
Defined.

(** ** The editor store *)

Section store_properties.
Import Store.
Local Open Scope Z_scope.

Lemma maxZ_from its : ∀ acc,
  acc ≤ foldl (λ acc cur, Z.max acc (zIndex cur)) acc its ∧
  Forall (λ item,
            zIndex item ≤ foldl (λ acc cur, Z.max acc (zIndex cur)) acc its)
    its.
Proof.
  induction its as [|a its IH]; intros acc; simpl.
  - split; [lia|constructor].
  - destruct (IH (Z.max acc (zIndex a))) as [Hacc Hall].
    split; [lia|]. constructor; [lia|done].
Qed.

Lemma maxZ_nonneg its : 0 ≤ maxZ its.
Proof. apply maxZ_from. Qed.

Lemma maxZ_bound its item : item ∈ its → zIndex item ≤ maxZ its.
Proof.
  intros Hin. pose proof (proj2 (maxZ_from its 0)) as Hall.
  rewrite Forall_forall in Hall. by apply Hall.
Qed.



Lemma raise_absent z id (its : list CanvasItem) :
  id ∉ ci_id <$> its →
  (λ item, if decide (ci_id item = id) then raised z item else item) <$> its
  = its.
Proof.
  induction its as [|a its IH]; intros Hnot; [done|].
  rewrite fmap_cons in Hnot. apply not_elem_of_cons in Hnot as [Hne Hnot].
  rewrite fmap_cons, IH by done. by rewrite decide_False.
Qed.

Lemma raise_ids z id (its : list CanvasItem) :
  ci_id <$>
    ((λ item, if decide (ci_id item = id) then raised z item else item)
       <$> its)
  = ci_id <$> its.
Proof.
  rewrite <- list_fmap_compose. apply list_fmap_ext.
  intros i item _. simpl. by case_decide.
Qed.

Lemma raise_distinct M id its :
  Forall (λ item, zIndex item ≤ M) its →
  NoDup (ci_id <$> its) → NoDup (zIndex <$> its) →
  NoDup (zIndex <$>
           ((λ item,
               if decide (ci_id item = id) then raised (M + 1) item
               else item) <$> its)).
Proof.
  induction its as [|a its IH]; intros Hle Hid Hz; [constructor|].
  apply Forall_cons in Hle as [Ha Hle].
  rewrite fmap_cons in Hid. rewrite fmap_cons in Hz.
  apply NoDup_cons in Hid as [Hida Hid].
  apply NoDup_cons in Hz as [Hza Hz].
  rewrite !fmap_cons. apply NoDup_cons.
  destruct (decide (ci_id a = id)) as [Ea|Ea].
  - subst id. rewrite raise_absent by done. split; [|done]. simpl.
    intros Hin. apply list_elem_of_fmap in Hin as (b & Hb & Hin).
    rewrite Forall_forall in Hle. specialize (Hle _ Hin). lia.
  - split; [|by apply IH].
    intros Hin. apply list_elem_of_fmap in Hin as (b & Hb & Hin).
    apply list_elem_of_fmap in Hin as (c & -> & Hin).
    rewrite Forall_forall in Hle. specialize (Hle _ Hin).
    destruct (decide (ci_id c = id)); simpl in Hb; [lia|].
    apply Hza. apply list_elem_of_fmap. by exists c.
Qed.

Lemma wellFormed_initial : wellFormed initialState.
Proof.
  split_and!; [constructor|constructor|constructor|done].
Qed.

Lemma wellFormed_act state a :
  wellFormed state → allowed state a → wellFormed (act state a).
Proof.
  intros (Hid & Hz & Hpos & Hsel) Hallowed.
  destruct a as [newId type src|id payload|sel|id| |id]; simpl in *.
  - unfold wellFormed, ids, addItem in *. simpl.
    rewrite !fmap_app. simpl. split_and!.
    + apply NoDup_app. split_and!; [done| |apply NoDup_singleton].
      by intros x Hx ->%list_elem_of_singleton.
    + apply NoDup_app. split_and!; [done| |apply NoDup_singleton].
      intros z Hin ->%list_elem_of_singleton.
      apply list_elem_of_fmap in Hin as (b & Hb & Hin).
      pose proof (maxZ_bound _ _ Hin). lia.
    + apply Forall_app. split; [done|]. apply Forall_singleton. simpl.
      pose proof (maxZ_nonneg (items state)). lia.
    + intros id [= <-]. apply elem_of_app. right. apply list_elem_of_here.
  - destruct Hallowed as [Hpid Hpz].
    assert (∀ item,
              ci_id (if decide (ci_id item = id) then merge item payload
                     else item) = ci_id item ∧
              zIndex (if decide (ci_id item = id) then merge item payload
                      else item) = zIndex item) as Hsame.
    { intros item. case_decide; [|done]. unfold merge. simpl.
      by rewrite Hpid, Hpz. }
    unfold wellFormed, ids, updateItem in *. simpl.
    rewrite <- !list_fmap_compose.
    rewrite (list_fmap_ext _ ci_id) by (intros i x _; apply Hsame).
    rewrite (list_fmap_ext _ zIndex (items state))
      by (intros i x _; apply Hsame).
    split_and!; [done|done| |done].
    apply Forall_fmap. eapply Forall_impl; [exact Hpos|].
    intros item ?. simpl. by rewrite (proj2 (Hsame item)).
  - unfold wellFormed, ids, setSelected in *. simpl.
    split_and!; [done|done|done|].
    intros id ->. done.
  - unfold wellFormed, ids, removeItem in *. simpl. split_and!.
    + apply (sublist_NoDup _ (ci_id <$> items state)); [done|].
      apply fmap_sublist, sublist_filter.
    + apply (sublist_NoDup _ (zIndex <$> items state)); [done|].
      apply fmap_sublist, sublist_filter.
    + rewrite Forall_forall in Hpos. apply Forall_forall.
      intros item [_ Hin]%list_elem_of_filter. by apply Hpos.
    + intros s Hs. case_decide; [done|].
      specialize (Hsel _ Hs).
      apply list_elem_of_fmap in Hsel as (item & -> & Hin).
      apply list_elem_of_fmap. exists item. split; [done|].
      apply list_elem_of_filter. split; [|done]. congruence.
  - unfold wellFormed, ids, removeSelected in *. simpl. split_and!.
    + apply (sublist_NoDup _ (ci_id <$> items state)); [done|].
      apply fmap_sublist, sublist_filter.
    + apply (sublist_NoDup _ (zIndex <$> items state)); [done|].
      apply fmap_sublist, sublist_filter.
    + rewrite Forall_forall in Hpos. apply Forall_forall.
      intros item [_ Hin]%list_elem_of_filter. by apply Hpos.
    + done.
  - unfold wellFormed, ids, bringToFront in *. simpl.
    rewrite raise_ids. split_and!; [done| | |done].
    + apply raise_distinct; [|done|done].
      apply Forall_forall. intros item Hin. by apply maxZ_bound.
    + apply Forall_fmap. eapply Forall_impl; [exact Hpos|].
      intros item ?. simpl. case_decide; [|done]. simpl.
      pose proof (maxZ_nonneg (items state)). lia.
Qed.

Lemma wellFormed_run actions : ∀ state,
  wellFormed state → allowedFrom state actions →
  wellFormed (runActions actions state).
Proof.
  induction actions as [|a rest IH]; intros state Hwf Hall; [done|].
  destruct Hall as [Ha Hrest].
  change (runActions (a :: rest) state) with (runActions rest (act state a)).
  apply IH; [by apply wellFormed_act|done].
Qed.

(** X27.  As the editor uses the store (generated ids are new, updates
    leave id and layer alone, only items on the canvas are selected), the
    items always have distinct ids and distinct positive layers, so the
    stacking order is never ambiguous, and the selection is either empty
    or an item on the canvas. *)
Theorem store_stays_well_formed (actions : list Action) :
  allowedFrom initialState actions →
  wellFormed (runActions actions initialState).
Proof. intros Hall. by apply wellFormed_run; [apply wellFormed_initial|]. Qed.

End store_properties.

Lemma store_stays_well_formed_witness :
  Store.wellFormed
    (Store.runActions
       [Store.AddItem "a" TChar "/assets/char/a.png";
        Store.AddItem "b" TCard "/assets/card/b.png";
        Store.BringToFront "a";
        Store.UpdateItem "b"
          (Store.mkPayload None None None (Some 10%Q) (Some 20%Q)
             None None None None);
        Store.SetSelected (Some "a");
        Store.RemoveSelected;
        Store.RemoveItem "b"]
       Store.initialState).
Proof.
  apply (store_stays_well_formed
           [Store.AddItem "a" TChar "/assets/char/a.png";
            Store.AddItem "b" TCard "/assets/card/b.png";
            Store.BringToFront "a";
            Store.UpdateItem "b"
              (Store.mkPayload None None None (Some 10%Q) (Some 20%Q)
                 None None None None);
            Store.SetSelected (Some "a");
            Store.RemoveSelected;
            Store.RemoveItem "b"]).
  simpl. split_and!; try done; compute_done.
Defined.

(** ** Clicks on the formation board *)

Section formation_clicks.
Import Formation.
Local Open Scope nat_scope.

(** A click is one [assignFormation] call or nothing. *)
Lemma click_cases slotIdx pick prev :
  clickFormationSlot slotIdx pick prev = prev ∨
  ∃ item, clickFormationSlot slotIdx pick prev
          = assignFormation slotIdx item prev.
Proof.
  unfold clickFormationSlot.
  destruct (slotAt prev slotIdx); [right; eauto|].
  destruct pick; [right; eauto|by left].
Qed.

Lemma click_keeps_board slotIdx pick prev :
  slotIdx < 6 →
  length prev = 6 ∧ capacityOk prev ∧ uniqueIds prev →
  let next := clickFormationSlot slotIdx pick prev in
  length next = 6 ∧ capacityOk next ∧ uniqueIds next.
Proof.
  intros Hidx (Hlen & Hcap & Hu) next. subst next.
  destruct (click_cases slotIdx pick prev) as [->|[item ->]]; [done|].
  split_and!.
  - rewrite assignFormation_length; [done|lia].
  - by apply assignFormation_capacity.
  - by apply assignFormation_unique.
Qed.

Lemma clicks_keep_board clicks : ∀ s,
  Forall (λ c, c.1 < 6) clicks →
  length s = 6 ∧ capacityOk s ∧ uniqueIds s →
  length (runClicks clicks s) = 6 ∧ capacityOk (runClicks clicks s) ∧
  uniqueIds (runClicks clicks s).
Proof.
  unfold runClicks.
  induction clicks as [|c clicks IH]; intros s Hall Hs; simpl; [done|].
  apply Forall_cons in Hall as [Hc Hall].
  apply IH; [done|]. by apply click_keeps_board.
Qed.

(** X28.  On the board as the page shows it (six positions, reached from
    the empty formation by clicks) a click on an occupied position
    empties that position; a click on an empty position without a picked
    character does nothing; with a picked character it is refused exactly
    when five positions are occupied, and otherwise the character stands
    at the clicked position and nowhere else.  In every case the board
    keeps six positions, at most five characters, at most two per lane,
    and no character twice. *)
Theorem click_on_board (clicks : list (nat * option LibraryItem))
    (slotIdx : nat) (pick : option LibraryItem) :
  Forall (λ c, c.1 < 6) clicks → slotIdx < 6 →
  let prev := runClicks clicks emptyFormation in
  let next := clickFormationSlot slotIdx pick prev in
  (length next = 6 ∧ capacityOk next ∧ uniqueIds next) ∧
  match slotAt prev slotIdx, pick with
  | Some _, _ => next = js_set prev slotIdx None
  | None, None => next = prev
  | None, Some p =>
      if decide (5 ≤ occupied prev) then next = prev
      else slotAt next slotIdx = Some p ∧
           ∀ j b, slotAt next j = Some b → item_id b = item_id p →
                  j = slotIdx
  end.
Proof.
  intros Hall Hidx prev next.
  assert (length prev = 6 ∧ capacityOk prev ∧ uniqueIds prev) as Hprev.
  { apply clicks_keep_board; [done|]. split_and!; [done| |].
    - apply capacityOk_empty.
    - apply uniqueIds_replicate. }
  pose proof (click_keeps_board slotIdx pick prev Hidx Hprev) as Hnext.
  fold next in Hnext. split; [done|].
  subst next. unfold clickFormationSlot in *.
  destruct (slotAt prev slotIdx) as [cur|] eqn:Hcur; [done|].
  destruct pick as [p|]; [|done].
  destruct Hprev as (Hlen & _ & _).
  rewrite (assign_to_empty_position slotIdx p prev Hlen Hidx Hcur) in *.
  destruct (decide (5 ≤ occupied prev)) as [H5|H5]; [done|].
  assert (slotAt
            (js_set
               match findIndex (sameId p) prev with
               | Some e => js_set prev e None
               | None => prev
               end slotIdx (Some p)) slotIdx = Some p) as Hat
    by (by rewrite slotAt_js_set, decide_True).
  split; [done|]. intros j b Hb Hid.
  destruct Hnext as (_ & _ & Hu). by apply (Hu j slotIdx b p).
Qed.

Lemma click_on_board_witness :
  let prev := runClicks [(0, Some charA); (2, Some charB)] emptyFormation in
  let next := clickFormationSlot 4 (Some charA) prev in
  slotAt next 4 = Some charA ∧ slotAt next 0 = None ∧
  length next = 6.
Proof.
  intros prev next.
  destruct (click_on_board [(0, Some charA); (2, Some charB)] 4
              (Some charA)) as [(Hlen & _ & _) Hcase].
  - repeat constructor; simpl; lia.
  - lia.
  - fold prev in Hlen, Hcase. fold next in Hlen, Hcase.
    split; [|split; [reflexivity|exact Hlen]].
    change (slotAt prev 4) with (@None LibraryItem) in Hcase.
    simpl in Hcase.
    destruct (decide (5 ≤ occupied prev)) as [H5|H5]; [|apply Hcase].
    exfalso. vm_compute in H5. lia.
Defined.

End formation_clicks.
